(** * yuna: provider normalisers, Hidive request signing and list mutations

    A shallow embedding of the parts of the yuna desktop client that carry
    logic of their own:

    - the Crunchyroll episode normaliser ([getEpisodeNumber],
      [fixEpisodeNumbers], [isRealEpisode]) and its locale fetch;
    - the Hidive client: episode ids, [fetchStream], request nonce and
      signature;
    - the list mutations of [graphql/mutations/list-entry.ts] over the
      Apollo cache.

    Conventions of the embedding.

    - JavaScript strings are [string]s whose characters are the code units
      below 256.
    - JavaScript numbers are [jsnum]: [NaN], an infinity, or a finite
      double [Fin q] given by its exact value.  Arithmetic rounds as
      IEEE 754 binary64 does, to the nearest double and on a tie to the
      even one.
    - Integers of the GraphQL schema ([Int]) are [Z].
    - [await] is sequencing; a rejected promise or a thrown exception is an
      explicit outcome of the function that can produce it.  A request may
      be answered or fail in transport: superagent rejects the promise of a
      request without answer or with a status outside 2xx. *)

From Stdlib Require Import Ascii String QArith Qround.
From Stdlib Require Floats.SpecFloat.
From stdpp Require Import gmap strings list numbers pretty functions.

Open Scope string_scope.
Open Scope Z_scope.

(** ** JavaScript numbers and strings *)

Module JS.

(** A number is NaN, an infinity or a finite double, given by its exact
    value in lowest terms.  [Fin 0] stands for both zeros: the code below
    never tells them apart (it subtracts, takes [Math.max(0, _)] and
    compares the remainder with 0), and no negative zero arises from the
    numerals it converts. *)
Inductive jsnum : Type :=
| NaN
| PInf
| NInf
| Fin (q : Q).

Definition of_Z (z : Z) : jsnum := Fin (inject_Z z).

(** *** Rounding to a double

    A double has 53 significant bits and an exponent between -1074 and
    971 for its last bit.  An exact value is rounded to the nearest such
    number, a tie to the one whose last bit is 0; what reaches 2^1024 is
    an infinity. *)

(** The largest [k] with [2^k <= n/d]: it is the difference of the two
    bit lengths or one less. *)
Definition log2_floor (n d : positive) : Z :=
  let k := Z.log2 (Zpos n) - Z.log2 (Zpos d) in
  if (if 0 <=? k then Zpos d * 2 ^ k <=? Zpos n
      else Zpos d <=? Zpos n * 2 ^ (- k))
  then k else k - 1.

(** [a / b] rounded to the nearest integer, a tie to the even one. *)
Definition round_half_even (a b : Z) : Z :=
  let f := a / b in
  match 2 * (a mod b) ?= b with
  | Lt => f
  | Gt => f + 1
  | Eq => if Z.even f then f else f + 1
  end.

(** [m * 2^e], in lowest terms. *)
Definition scale (m e : Z) : Q :=
  if 0 <? e then inject_Z (m * 2 ^ e)
  else Qred (m # Z.to_pos (2 ^ (- e))).

(** The double nearest to [n/d], as a significand and the exponent of its
    last bit; [None] on overflow.  The exponent leaves 53 bits to the
    significand, and stops at -1074, where the subnormal numbers are. *)
Definition round_pos (n d : positive) : option (Z * Z) :=
  let e := Z.max (log2_floor n d - 52) (-1074) in
  if 0 <? e then
    let m := round_half_even (Zpos n) (Zpos d * 2 ^ e) in
    if 2 ^ 1024 <=? m * 2 ^ e then None else Some (m, e)
  else Some (round_half_even (Zpos n * 2 ^ (- e)) (Zpos d), e).

Definition round64 (q : Q) : jsnum :=
  match Qnum q with
  | Z0 => Fin 0
  | Zpos n =>
      match round_pos n (Qden q) with
      | Some (m, e) => Fin (scale m e)
      | None => PInf
      end
  | Zneg n =>
      match round_pos n (Qden q) with
      | Some (m, e) => Fin (scale (- m) e)
      | None => NInf
      end
  end.

(** [a - b]: the exact difference, rounded. *)
Definition sub (a b : jsnum) : jsnum :=
  match a, b with
  | NaN, _ | _, NaN => NaN
  | PInf, PInf | NInf, NInf => NaN
  | PInf, _ | _, NInf => PInf
  | NInf, _ | _, PInf => NInf
  | Fin x, Fin y => round64 (x - y)
  end.

(** [Math.max(0, a)]: [NaN] as soon as an argument is [NaN]. *)
Definition max0 (a : jsnum) : jsnum :=
  match a with
  | NaN => NaN
  | PInf => PInf
  | NInf => Fin 0
  | Fin x => if Qle_bool 0 x then Fin x else Fin 0
  end.

(** Truncation towards zero, as the remainder operator uses it. *)
Definition Qtrunc (x : Q) : Z := Z.quot (Qnum x) (Zpos (Qden x)).

(** [a % 1]: the remainder of a finite number is exact; an infinity has
    none. *)
Definition rem1 (a : jsnum) : jsnum :=
  match a with
  | NaN | PInf | NInf => NaN
  | Fin x => Fin (Qred (x - inject_Z (Qtrunc x)))
  end.

(** [a !== 0]: [NaN] is different from everything. *)
Definition strict_neq0 (a : jsnum) : bool :=
  match a with
  | NaN | PInf | NInf => true
  | Fin x => negb (Qeq_bool x 0)
  end.

Definition is_digit (c : ascii) : bool :=
  let n := N_of_ascii c in ((48 <=? n) && (n <=? 57))%N.

Definition digit_value (c : ascii) : N := (N_of_ascii c - 48)%N.

Definition is_dot (c : ascii) : bool := Ascii.eqb c ".".

(** Value of a string of decimal digits, most significant first. *)
Fixpoint digits_value (acc : N) (s : string) : N :=
  match s with
  | EmptyString => acc
  | String c s' => digits_value (10 * acc + digit_value c)%N s'
  end.

Fixpoint all_chars (p : ascii -> bool) (s : string) : bool :=
  match s with
  | EmptyString => true
  | String c s' => p c && all_chars p s'
  end.

Fixpoint filter_chars (p : ascii -> bool) (s : string) : string :=
  match s with
  | EmptyString => EmptyString
  | String c s' =>
      if p c then String c (filter_chars p s') else filter_chars p s'
  end.

(** Splits at the first dot: the digits before it, and what follows it
    when there is one. *)
Fixpoint split_dot (s : string) : string * option string :=
  match s with
  | EmptyString => (EmptyString, None)
  | String c s' =>
      if is_dot c then (EmptyString, Some s')
      else let '(i, f) := split_dot s' in (String c i, f)
  end.

(** [Number(s)] for a string over the alphabet [0-9.], the only strings
    the normaliser converts.  On that alphabet the numeric string grammar
    of ECMAScript leaves: the empty string, which is 0; digits; digits
    with one dot before, inside or after them.  Anything else (a lone
    dot, two dots) is [NaN].  The value is the double nearest to the
    decimal numeral, as V8 computes it. *)
Definition Number (s : string) : jsnum :=
  match split_dot s with
  | (i, None) =>
      if all_chars is_digit i
      then round64 (inject_Z (Z.of_N (digits_value 0 i)))
      else NaN
  | (i, Some f) =>
      if all_chars is_digit i && all_chars is_digit f
         && negb (String.eqb i "" && String.eqb f "")
      then round64 (Qmake (Z.of_N (digits_value 0 (i ++ f)))
                          (Z.to_pos (10 ^ Z.of_nat (String.length f))))
      else NaN
  end.

End JS.

(** ** Sequential asynchronous code

    The provider clients are straight-line [async] functions: they send a
    request, wait, look at the answer and go on.  [IO] threads the trace of
    what was sent and slept; what happens to the n-th request is given by
    the network script [net].  A computation ends in a value or in a thrown
    exception. *)

Module Async.

Inductive Exn : Type :=
| Error (message : string)
| TypeError.

Inductive Outcome (A : Type) : Type :=
| Return (a : A)
| Throw (e : Exn).
Arguments Return {A} a.
Arguments Throw {A} e.

(** What becomes of a request: superagent resolves with the response, or,
    when there is none or its status is outside 2xx, rejects with an
    error. *)
Inductive Reply (Resp : Type) : Type :=
| Answered (response : Resp)
| Failed (message : string).
Arguments Answered {Resp} response.
Arguments Failed {Resp} message.

Section IO.
Context {Req Resp : Type}.

Inductive Event : Type :=
| Sent (r : Req)
| Slept (ms : Z).

Definition is_sent (e : Event) : bool :=
  match e with Sent _ => true | Slept _ => false end.

Definition requests (tr : list Event) : nat :=
  length (List.filter is_sent tr).

Definition IO (A : Type) : Type :=
  (nat -> Reply Resp) -> list Event -> Outcome A * list Event.

Definition ret {A} (a : A) : IO A := fun _ tr => (Return a, tr).

Definition throw {A} (e : Exn) : IO A := fun _ tr => (Throw e, tr).

Definition bind {A B} (m : IO A) (k : A -> IO B) : IO B :=
  fun net tr =>
    match m net tr with
    | (Return a, tr') => k a net tr'
    | (Throw e, tr') => (Throw e, tr')
    end.

(** [await request(r)]: the rejection of the awaited promise is thrown. *)
Definition send (r : Req) : IO Resp :=
  fun net tr =>
    (match net (requests tr) with
     | Answered response => Return response
     | Failed message => Throw (Error message)
     end,
     (tr ++ [Sent r])%list).

(** [await delay(ms)] *)
Definition delay (ms : Z) : IO unit :=
  fun _ tr => (Return tt, (tr ++ [Slept ms])%list).

Definition run {A} (m : IO A) (net : nat -> Reply Resp)
  : Outcome A * list Event :=
  m net [].
End IO.

Arguments Event : clear implicits.
Arguments IO : clear implicits.

End Async.

#[global] Instance IO_ret {Req Resp} : MRet (Async.IO Req Resp) :=
  fun A a => Async.ret a.
#[global] Instance IO_bind {Req Resp} : MBind (Async.IO Req Resp) :=
  fun A B k m => Async.bind m k.

(** ** Shared types *)

Module Types.

Inductive Provider : Type := ProviderCrunchyroll | ProviderHidive.

#[global] Instance Provider_eq_dec : EqDecision Provider.
Proof. solve_decision. Defined.

(** [Omit<EpisodeListEpisodes, 'isWatched'>], over the type of its
    [episodeNumber]: the providers put the raw value of their payload
    there, [fixEpisodeNumbers] a number. *)
Record Episode (N : Type) : Type := {
  provider : Provider;
  id : string;
  animeId : Z;
  title : string;
  progress : option Z;
  index : nat;
  episodeNumber : N;
  duration : Z;
  url : string;
  subtitles : list (string * string);
  thumbnail : string;
}.
Arguments provider {N} _.
Arguments id {N} _.
Arguments animeId {N} _.
Arguments title {N} _.
Arguments progress {N} _.
Arguments index {N} _.
Arguments episodeNumber {N} _.
Arguments duration {N} _.
Arguments url {N} _.
Arguments subtitles {N} _.
Arguments thumbnail {N} _.

End Types.

(** ** Crunchyroll *)

Module Crunchyroll.
Import JS Async.
Import Types(Provider, ProviderCrunchyroll, ProviderHidive, Episode).

(** The fields of [_Media] that [mediaFields] asks for and the normaliser
    reads; [screenshot_image] is reduced to its [full_url]. *)
Record _Media : Type := {
  media_id : string;
  episode_number : string;
  duration : Z;
  name : string;
  screenshot_image : option string;
  url : string;
  playhead : Z;
}.

Definition missingThumbnail : string := "missing-thumbnail.webp".

(** [playhead || null] *)
Definition or_null (z : Z) : option Z := if Z.eqb z 0 then None else Some z.

Definition mediaToEpisode (id : Z) (m : _Media) (index : nat)
  : Episode string :=
  {| Types.provider := ProviderCrunchyroll;
     Types.id := media_id m;
     Types.animeId := id;
     Types.title := name m;
     Types.progress := or_null (playhead m);
     Types.index := index;
     Types.episodeNumber := episode_number m;
     Types.duration := duration m;
     Types.url := url m;
     Types.subtitles := [];
     Types.thumbnail := default missingThumbnail (screenshot_image m) |}.

(** [str.replace(/[^\d.]/g, '')] *)
Definition onlyNumbers (str : string) : string :=
  filter_chars (fun c => is_digit c || is_dot c) str.

(** The argument is a string at every call: [mediaToEpisode] copies the
    raw [episode_number]. *)
Definition getEpisodeNumber (num : string) : jsnum := Number (onlyNumbers num).

(** [{ ...ep, episodeNumber: n }] *)
Definition set_episodeNumber {N M} (ep : Episode N) (n : M) : Episode M :=
  {| Types.provider := Types.provider ep;
     Types.id := Types.id ep;
     Types.animeId := Types.animeId ep;
     Types.title := Types.title ep;
     Types.progress := Types.progress ep;
     Types.index := Types.index ep;
     Types.episodeNumber := n;
     Types.duration := Types.duration ep;
     Types.url := Types.url ep;
     Types.subtitles := Types.subtitles ep;
     Types.thumbnail := Types.thumbnail ep |}.

(** [episodes[0]?.episodeNumber] is nil exactly on the empty list. *)
Definition fixEpisodeNumbers (episodes : list (Episode string))
  : list (Episode jsnum) :=
  match episodes with
  | [] => []
  | ep0 :: _ =>
      let firstIndex :=
        max0 (sub (getEpisodeNumber (Types.episodeNumber ep0)) (of_Z 1)) in
      map (fun ep =>
             let num := getEpisodeNumber (Types.episodeNumber ep) in
             set_episodeNumber ep (sub num firstIndex))
          episodes
  end.

Definition episodeNumberIsHalf (m : _Media) : bool :=
  strict_neq0 (rem1 (getEpisodeNumber (episode_number m))).

Definition isSpecialEpisode (m : _Media) : bool :=
  String.eqb (episode_number m) "SP" || String.eqb (episode_number m) "".

(** Modelled from the spec: [anyPass] of [@/utils] is not among the
    sources.  The spec has [isRealEpisode] exclude an entry that is
    fractional or special, so [anyPass value preds] holds when at least
    one of the predicates accepts the value. *)
Definition anyPass {A} (value : A) (preds : list (A -> bool)) : bool :=
  existsb (fun p => p value) preds.

Definition isRealEpisode (ep : _Media) : bool :=
  negb (anyPass ep [episodeNumberIsHalf; isSpecialEpisode]).

(** The pure part of [fetchEpisodesOfCollection], applied to the
    [data] of a successful [list_media] response. *)
Definition normalizeEpisodes (id : Z) (data : list _Media)
  : list (Episode jsnum) :=
  fixEpisodeNumbers (imap (fun i m => mediaToEpisode id m i)
                          (List.filter isRealEpisode data)).

(** *** Locales *)

Record _Locale : Type := { locale_id : string; label : string }.

(** [CrunchyrollResponse<D>]: the body of a success carries [data], the
    body of an error carries [error: true], a [code] and a [message].
    The type guard [responseIsError] is the match on the constructor. *)
Inductive CrunchyrollResponse (D : Type) : Type :=
| CrunchyrollSuccess (data : D)
| CrunchyrollError (code message : string).
Arguments CrunchyrollSuccess {D} data.
Arguments CrunchyrollError {D} code message.

Definition responseIsError {D} (res : CrunchyrollResponse D) : bool :=
  match res with
  | CrunchyrollSuccess _ => false
  | CrunchyrollError _ _ => true
  end.

Definition RequestTypes : Type := string.

(** The awaited value of [request] has the type the source casts it to: a
    success or an error envelope.  The call has no [.ok(T)] and no
    [catch]: a request that fails in transport rejects. *)
Definition request {D} (type : RequestTypes)
  : IO RequestTypes (CrunchyrollResponse D) (CrunchyrollResponse D) :=
  send type.

Definition fetchLocales
  : IO RequestTypes (CrunchyrollResponse (list _Locale)) (list _Locale) :=
  response ← request "list_locales";
  match response with
  | CrunchyrollError _ _ =>
      _ ← delay 1500;
      response ← request "list_locales";
      match response with
      | CrunchyrollError _ message => throw (Error message)
      | CrunchyrollSuccess data => mret data
      end
  | CrunchyrollSuccess data => mret data
  end.

End Crunchyroll.

(** ** Hidive *)

Module Hidive.
Import JS Async.

Inductive RequestType : Type :=
| Ping | InitDevice | Authenticate | GetTitle | GetVideos.

(** The bodies the client posts; [Ping] posts none. *)
Inductive Body : Type :=
| InitDeviceBody (DeviceName : string)
| AuthenticateBody (Email Password : string)
| GetTitleBody (Id : Z)
| GetVideosBody (TitleId VideoKey : string).

(** The module-level session state and the stored profile. *)
Record Session : Type := {
  deviceId : string;
  visitId : string;
  ipAddress : string;
  userId : Z;
  profileId : Z;
}.

Record Headers : Type := {
  X_ApplicationId : string;
  X_DeviceId : string;
  X_VisitId : string;
  X_UserId : Z;
  X_ProfileId : Z;
  X_Nonce : string;
  X_Signature : string;
}.

Record HidiveRequest : Type := {
  req_type : RequestType;
  req_headers : Headers;
  req_body : option Body;
}.

(** [HidiveResponse<D>]: [ok] of the response, [Code] and [Data] of its
    body. *)
Record HidiveResponse (D : Type) : Type := {
  ok : bool;
  Code : Z;
  Data : D;
}.
Arguments ok {D} _.
Arguments Code {D} _.
Arguments Data {D} _.

(** An object is the list of its properties in insertion order, with
    distinct keys.  [Object.keys] lists them in that order, the keys that
    read as array indices first; such a key does not contain ['Japanese'],
    so where it stands does not matter below. *)
Definition Obj (V : Type) : Type := list (string * V).

Definition keys {V} (o : Obj V) : list string := map fst o.

(** [o[key]] *)
Definition get {V} (o : Obj V) (key : string) : option V :=
  snd <$> List.find (fun kv => String.eqb (fst kv) key) o.

(** [o[key]] for a [key] that may be [undefined]: a property access turns
    its key into a string, and [undefined] into the name ["undefined"]. *)
Definition get_opt {V} (o : Obj V) (key : option string) : option V :=
  get o (default "undefined" key).

(** [str.includes(search)] *)
Fixpoint includes (search str : string) : bool :=
  String.prefix search str ||
  match str with
  | EmptyString => false
  | String _ str' => includes search str'
  end.

Record VideoUrl : Type := { hls : list string }.

Record _Stream : Type := {
  CaptionLanguages : list string;
  CaptionVttUrls : Obj string;
  CurrentTime : Z;
  VideoUrls : Obj VideoUrl;
}.

(** [Stream]; [url] and the subtitle urls are [undefined] when the
    payload lacks them. *)
Record Stream : Type := {
  url : option string;
  subtitles : list (string * option string);
  progress : Z;
}.

Record _Episode : Type := {
  EpisodeNumberValue : Z;
  Name : string;
  ScreenShotSmallUrl : string;
  VideoKey : string;
}.

Record _Title : Type := {
  Id : Z;
  TitleName : string;
  RunTime : Z;
  Episodes : list _Episode;
}.

(** *** Episode ids *)

(** The template [`${title.Id}-${ep.VideoKey}`] of [fetchEpisodesById]. *)
Definition episodeId (title : _Title) (ep : _Episode) : string :=
  pretty (Id title) ++ "-" ++ VideoKey ep.

(** Line terminators, which [.] does not match (there is no [s] flag).
    Of the four that ECMAScript has, LF and CR are code units below
    256. *)
Definition is_line_terminator (c : ascii) : bool :=
  Ascii.eqb c "010" || Ascii.eqb c "013".

Definition dot (c : ascii) : bool := negb (is_line_terminator c).

Definition is_hyphen (c : ascii) : bool := Ascii.eqb c "-".

(** The pattern of [fetchStream] is anchored at both ends and reads: a
    greedy group of any characters, a hyphen, a second group of any
    characters.  One attempt with the first group on the first [n]
    characters: the group holds no line terminator, a hyphen follows, and
    the second group reaches the end of the input. *)
Definition match_attempt (n : nat) (cs : list ascii)
  : option (list ascii * list ascii) :=
  match drop n cs with
  | c :: rest =>
      if forallb dot (take n cs) && is_hyphen c && forallb dot rest
      then Some (take n cs, rest)
      else None
  | [] => None
  end.

(** The first group is greedy: the longest candidate is tried first and
    the matcher backtracks one character at a time. *)
Fixpoint match_backtrack (n : nat) (cs : list ascii)
  : option (list ascii * list ascii) :=
  match match_attempt n cs with
  | Some r => Some r
  | None =>
      match n with
      | O => None
      | S n' => match_backtrack n' cs
      end
  end.

(** [id.match(pattern)]: the two groups, or [None] for [null]. *)
Definition match_id (id : string) : option (string * string) :=
  let cs := list_ascii_of_string id in
  match match_backtrack (length cs) cs with
  | Some (g1, g2) => Some (string_of_list_ascii g1, string_of_list_ascii g2)
  | None => None
  end.

(** *** Names and urls *)

Definition is_alnum (c : ascii) : bool :=
  let n := N_of_ascii c in
  (((65 <=? n) && (n <=? 90)) || ((97 <=? n) && (n <=? 122))
   || ((48 <=? n) && (n <=? 57)))%N.

Definition to_lower (c : ascii) : ascii :=
  let n := N_of_ascii c in
  if ((65 <=? n) && (n <=? 90))%N then ascii_of_N (n + 32) else c.

Fixpoint map_chars (f : ascii -> ascii) (s : string) : string :=
  match s with
  | EmptyString => EmptyString
  | String c s' => String (f c) (map_chars f s')
  end.

(** Replaces every run of hyphens by one hyphen. *)
Fixpoint squeeze_hyphens (s : string) : string :=
  match s with
  | EmptyString => EmptyString
  | String c s' =>
      match s' with
      | String c' _ =>
          if is_hyphen c && is_hyphen c' then squeeze_hyphens s'
          else String c (squeeze_hyphens s')
      | EmptyString => String c EmptyString
      end
  end.

Definition drop_leading_hyphen (s : string) : string :=
  match s with
  | String c s' => if is_hyphen c then s' else s
  | EmptyString => s
  end.

Fixpoint drop_trailing_hyphen (s : string) : string :=
  match s with
  | EmptyString => EmptyString
  | String c EmptyString => if is_hyphen c then EmptyString else s
  | String c s' => String c (drop_trailing_hyphen s')
  end.

Definition convertName (name : string) : string :=
  map_chars to_lower
    (drop_trailing_hyphen
       (drop_leading_hyphen
          (squeeze_hyphens
             (map_chars (fun c => if is_alnum c then c else "-"%char) name)))).

(** [s.replace(/^\/\//, 'https://')] *)
Definition absolute_url (s : string) : string :=
  match s with
  | String "/" (String "/" s') => "https://" ++ s'
  | _ => s
  end.

(** *** Signed requests *)

Section Signing.
(** [getConfig('HIDIVE_TOKEN')] and [getConfig('HIDIVE_CLIENT')]. *)
Variables TOKEN APP_ID : string.
(** [crypto.createHash('sha256').update(s).digest('hex')] *)
Variable sha256_hex : string -> string.
Variable JSON_stringify : Body -> string.
(** The clock of the machine: the offset of its zone at an instant, in
    minutes, as [Date.prototype.getTimezoneOffset] returns it (UTC minus
    local time; it changes where daylight saving time begins and ends),
    and the rendering of an instant, in milliseconds since the epoch, as
    a UTC calendar date under a pattern. *)
Variable timezoneOffset : Z -> Z.
Variable formatUTC : Z -> string -> string.

Definition getTimezoneOffset (date : Z) : Z := timezoneOffset date.

(** [format] of date-fns renders the local calendar date of its argument:
    the UTC fields of the instant that lies the offset of the argument
    before it. *)
Definition format (date : Z) (pattern : string) : string :=
  formatUTC (date - getTimezoneOffset date * 60 * 1000) pattern.

(** [new Date(date.getTime() + date.getTimezoneOffset() * 60 * 1000)] *)
Definition getUTCDate (date : Z) : Z :=
  date + getTimezoneOffset date * 60 * 1000.

Definition generateNonce (now : Z) : string :=
  let date := format (getUTCDate now) "yyMMddHHmm" in
  let nonce := date ++ TOKEN in
  let hashedNonce := sha256_hex nonce in
  hashedNonce.

(** [JSON.stringify(body)] inside a string concatenation: a missing
    body gives [undefined], which concatenates as its name. *)
Definition stringify_body (body : option Body) : string :=
  match body with
  | Some b => JSON_stringify b
  | None => "undefined"
  end.

Definition generateSignature (sess : Session) (nonce : string)
  (body : option Body) : string :=
  let sigCleanStr :=
    ((((((((ipAddress sess ++
    APP_ID) ++
    deviceId sess) ++
    visitId sess) ++
    pretty (userId sess)) ++
    pretty (profileId sess)) ++
    stringify_body body) ++
    nonce) ++
    TOKEN) in
  sha256_hex sigCleanStr.

Definition request {D} (sess : Session) (now : Z) (type : RequestType)
  (body : option Body)
  : IO HidiveRequest (HidiveResponse D) (HidiveResponse D) :=
  let nonce := generateNonce now in
  let signature := generateSignature sess nonce body in
  send {| req_type := type;
          req_headers :=
            {| X_ApplicationId := APP_ID;
               X_DeviceId := deviceId sess;
               X_VisitId := visitId sess;
               X_UserId := userId sess;
               X_ProfileId := profileId sess;
               X_Nonce := nonce;
               X_Signature := signature |};
          req_body := body |}.

Definition fetchStream (sess : Session) (now : Z) (id : string)
  : IO HidiveRequest (HidiveResponse _Stream) (option Stream) :=
  match match_id id with
  | None => throw TypeError
  | Some (m1, m2) =>
      response ← request sess now GetVideos (Some (GetVideosBody m1 m2));
      if negb (ok response) || negb (Code response =? 0) then mret None
      else
        let Data := Data response in
        let videoUrls := VideoUrls Data in
        let japaneseSubbedKey :=
          List.find (fun str => includes "Japanese" str) (keys videoUrls) in
        match get_opt videoUrls japaneseSubbedKey with
        | None => throw TypeError
        | Some entry =>
            mret (Some {|
              url := head (hls entry);
              subtitles :=
                map (fun lang => (lang, get (CaptionVttUrls Data) lang))
                    (CaptionLanguages Data);
              progress := CurrentTime Data |})
        end
  end.

Definition fetchEpisodesById (sess : Session) (now : Z)
  (anilistId : Z) (id : Z)
  : IO HidiveRequest (HidiveResponse _Title)
       (option (list (Types.Episode Z))) :=
  response ← request sess now GetTitle (Some (GetTitleBody id));
  if negb (ok response) || negb (Code response =? 0) then mret None
  else
    let title := Data response in
    mret (Some (imap (fun index ep =>
      {| Types.provider := Types.ProviderHidive;
         Types.id := episodeId title ep;
         Types.animeId := anilistId;
         Types.title := Name ep;
         Types.duration := RunTime title * 60;
         Types.progress := None;
         Types.index := index;
         Types.episodeNumber := EpisodeNumberValue ep;
         Types.url :=
           "https://hidive.com/tv/" ++ convertName (TitleName title)
             ++ "/" ++ VideoKey ep;
         Types.subtitles := [];
         Types.thumbnail := absolute_url (ScreenShotSmallUrl ep) |})
      (Episodes title))).
End Signing.

End Hidive.

(** ** List mutations *)

Module ListMutations.
Import Async.
Import Types(Provider, ProviderCrunchyroll, ProviderHidive).

Inductive MediaListStatus : Type :=
| Current | Planning | Completed | Dropped | Paused | Repeating.

#[global] Instance MediaListStatus_eq_dec : EqDecision MediaListStatus.
Proof. solve_decision. Defined.

(** The entry of the data model; its numeric fields are [Int]s. *)
Record ListEntry : Type := {
  id : Z;
  mediaId : Z;
  score : Z;
  progress : Z;
  rewatched : Z;
  status : MediaListStatus;
}.

#[global] Instance ListEntry_eq_dec : EqDecision ListEntry.
Proof. solve_decision. Defined.

(** [Partial<Omit<ListEntry, '__typename' | 'mediaId'>>]: a field is
    [None] when the object does not have it. *)
Record PartialListEntry : Type := {
  p_id : option Z;
  p_score : option Z;
  p_progress : option Z;
  p_rewatched : option Z;
  p_status : option MediaListStatus;
}.

Definition no_values : PartialListEntry :=
  {| p_id := None; p_score := None; p_progress := None;
     p_rewatched := None; p_status := None |}.

Record EpisodeMutationObject : Type := {
  provider : Provider;
  animeId : Z;
  episodeNumber : Z;
}.

(** The Apollo cache, as far as the mutations touch it:
    - [data]: the normalised objects [cache.data.data]; the object named
      [ListEntry:<n>] is found under the key [n];
    - [animePage]: the [listEntry] of the stored result of
      [ANIME_PAGE_QUERY] for an anime id;
    - [lists]: the list views, one bucket of entries per status;
    - [episodeProgress]: the current episode of an anime at a provider. *)
Record Cache : Type := {
  data : gmap Z ListEntry;
  animePage : gmap Z (option ListEntry);
  lists : MediaListStatus -> list ListEntry;
  episodeProgress : Provider -> gmap Z Z;
}.

Definition set_data (f : gmap Z ListEntry -> gmap Z ListEntry) (c : Cache) :=
  {| data := f (data c); animePage := animePage c; lists := lists c;
     episodeProgress := episodeProgress c |}.

Definition set_animePage
  (f : gmap Z (option ListEntry) -> gmap Z (option ListEntry)) (c : Cache) :=
  {| data := data c; animePage := f (animePage c); lists := lists c;
     episodeProgress := episodeProgress c |}.

Definition set_lists
  (f : (MediaListStatus -> list ListEntry) -> MediaListStatus -> list ListEntry)
  (c : Cache) :=
  {| data := data c; animePage := animePage c; lists := f (lists c);
     episodeProgress := episodeProgress c |}.

Definition set_episodeProgress
  (f : (Provider -> gmap Z Z) -> Provider -> gmap Z Z) (c : Cache) :=
  {| data := data c; animePage := animePage c; lists := lists c;
     episodeProgress := f (episodeProgress c) |}.

(** *** Cache helpers of [@/utils/cache] *)

(** Modelled from the spec: [addToCacheList] of [@/utils/cache] is not
    among the sources.  It inserts a [ListEntry] into the bucket
    corresponding to its [status]. *)
Definition addToCacheList (cache : Cache) (entry : ListEntry) : Cache :=
  set_lists (fun l => <[status entry := (l (status entry) ++ [entry])%list]> l)
            cache.

(** Modelled from the spec: [removeFromCacheList] of [@/utils/cache] is
    not among the sources.  It removes any existing entry for [mediaId]
    from whichever bucket holds it, and is a no-op if absent. *)
Definition removeFromCacheList (cache : Cache) (anilistId : Z) : Cache :=
  set_lists
    (fun l s => List.filter (fun e => negb (mediaId e =? anilistId)) (l s))
    cache.

(** Modelled from the spec: [writeEpisodeProgressToCache] of
    [@/utils/cache] is not among the sources.  It updates the cached
    current-episode pointer for an anime and provider pair. *)
Definition writeEpisodeProgressToCache (cache : Cache)
  (options : EpisodeMutationObject) : Cache :=
  set_episodeProgress
    (fun p => <[provider options :=
                  <[animeId options := episodeNumber options]>
                    (p (provider options))]> p)
    cache.

(** *** The optimistic projection *)

(** [{ ...base, ...newValues }] *)
Definition spread (base : ListEntry) (newValues : PartialListEntry)
  : ListEntry :=
  {| id := default (id base) (p_id newValues);
     mediaId := mediaId base;
     score := default (score base) (p_score newValues);
     progress := default (progress base) (p_progress newValues);
     rewatched := default (rewatched base) (p_rewatched newValues);
     status := default (status base) (p_status newValues) |}.

Definition getOptimisticResponse (cache : Cache) (anilistId : Z)
  (newValues : PartialListEntry) : ListEntry :=
  let entry := data cache !! anilistId in
  spread
    {| id := default (-1) (id <$> entry);
       mediaId := anilistId;
       score := default (-1) (score <$> entry);
       progress := default (-1) (progress <$> entry);
       rewatched := default (-1) (rewatched <$> entry);
       status := default Planning (status <$> entry) |}
    newValues.

(** *** [$apollo.mutate] *)

Inductive MutationDocument : Type :=
| ADD_TO_LIST | DELETE_FROM_LIST | EDIT_LIST_ENTRY | UPDATE_STATUS
| START_REWATCHING | UPDATE_SCORE | UPDATE_PROGRESS.

Inductive Variables : Type :=
| AddToListVariables (anilistId : Z)
| DeleteFromListVariables (anilistId : Z)
| EditListEntryMutationVariables (anilistId : Z) (options : PartialListEntry)
| UpdateStatusVariables (anilistId : Z) (status : MediaListStatus)
| StartRewatchingVariables (anilistId : Z)
| UpdateScoreVariables (anilistId : Z) (score : Z)
| UpdateProgressVariables (anilistId : Z) (progress : Z).

(** The options object handed to [mutate].  [update] receives the cache
    and the [data] of the result, which may be missing; it completes or
    throws, and leaves the cache as far as it has changed it. *)
Record MutationOptions : Type := {
  mutation : MutationDocument;
  variables : Variables;
  optimisticResponse : option ListEntry;
  update : option (Cache -> option ListEntry -> Outcome unit * Cache);
}.

(** What the remote service answers to a mutation. *)
Inductive FetchResult : Type :=
| Resolved (data : option ListEntry)
| Rejected (message : string).

Definition Server : Type := MutationDocument -> Variables -> FetchResult.

(** The client: the cache, the mutations sent over the network with their
    options, the exceptions reported to Sentry, the errors written to the
    console, and the optimistic views of the cache shown while a mutation
    is in flight. *)
Record Client : Type := {
  cache : Cache;
  dispatched : list MutationOptions;
  captured : list Exn;
  logged : list Exn;
  inflight : list Cache;
}.

(** What a mutation function returns: the result of [mutate], the event
    id of [captureException], or nothing. *)
Inductive Returned : Type :=
| ExecutionResult (data : option ListEntry)
| EventId
| Undefined.

(** A result carrying an entry is written to the normalised store under
    the name of the entry. *)
Definition writeResult (cache : Cache) (data : option ListEntry) : Cache :=
  match data with
  | Some e => set_data <[mediaId e := e]> cache
  | None => cache
  end.

Definition apply_result (opts : MutationOptions) (cache : Cache)
  (data : option ListEntry) : Outcome unit * Cache :=
  let cache' := writeResult cache data in
  match update opts with
  | Some u => u cache' data
  | None => (Return tt, cache')
  end.

(** What the [update] callback threw, if it threw. *)
Definition thrown (r : Outcome unit * Cache) : list Exn :=
  match fst r with
  | Throw e => [e]
  | Return _ => []
  end.

(** The optimistic response, when there is one, is applied to a layer of
    its own, which is dropped when the answer arrives; the answer is then
    applied to the cache itself.  An exception of the [update] callback
    does not reach the caller: Apollo Client 2 runs the callback under
    [tryFunctionOrLogError], which writes the error to the console and
    goes on, so the mutation resolves and what the callback wrote before
    it threw stays written.  A request that the network fails rejects. *)
Definition mutate (server : Server) (opts : MutationOptions) (c : Client)
  : Outcome Returned * Client :=
  let projected :=
    match optimisticResponse opts with
    | Some o => [apply_result opts (cache c) (Some o)]
    | None => []
    end in
  let sent cache' errors :=
    {| cache := cache';
       dispatched := (dispatched c ++ [opts])%list;
       captured := captured c;
       logged := (logged c ++ flat_map thrown projected ++ errors)%list;
       inflight := (inflight c ++ map snd projected)%list |} in
  match server (mutation opts) (variables opts) with
  | Rejected message => (Throw (Error message), sent (cache c) [])
  | Resolved data =>
      let applied := apply_result opts (cache c) data in
      (Return (ExecutionResult data), sent (snd applied) (thrown applied))
  end.

(** [captureException] of Sentry. *)
Definition captureException (e : Exn) (c : Client)
  : Outcome Returned * Client :=
  (Return EventId,
   {| cache := cache c;
      dispatched := dispatched c;
      captured := (captured c ++ [e])%list;
      logged := logged c;
      inflight := inflight c |}).

(** [await m] as a statement of its own: the value is dropped, an exception
    goes on. *)
Definition await_only (r : Outcome Returned * Client)
  : Outcome Returned * Client :=
  match r with
  | (Return _, c) => (Return Undefined, c)
  | (Throw e, c) => (Throw e, c)
  end.

(** *** The mutations *)

Definition addToList (server : Server) (anilistId : Z) (c : Client) :=
  mutate server
    {| mutation := ADD_TO_LIST;
       variables := AddToListVariables anilistId;
       optimisticResponse := None;
       update := Some (fun cache data =>
         match data with
         | None => (Return tt, cache)
         | Some AddToList =>
             let cache := addToCacheList cache AddToList in
             match animePage cache !! anilistId with
             | None => (Throw TypeError, cache)
             | Some _ =>
                 (Return tt,
                  set_animePage <[anilistId := Some AddToList]> cache)
             end
         end) |}
    c.

Definition deleteFromList (server : Server) (anilistId : Z) (c : Client) :=
  mutate server
    {| mutation := DELETE_FROM_LIST;
       variables := DeleteFromListVariables anilistId;
       optimisticResponse := None;
       update := Some (fun cache _ =>
         let cache := removeFromCacheList cache anilistId in
         match animePage cache !! anilistId with
         | Some (Some _) =>
             (Return tt, set_animePage <[anilistId := None]> cache)
         | _ => (Return tt, cache)
         end) |}
    c.

Definition editListEntry (server : Server) (anilistId : Z)
  (options : PartialListEntry) (c : Client) :=
  let oldStatus :=
    status (getOptimisticResponse (cache c) anilistId no_values) in
  mutate server
    {| mutation := EDIT_LIST_ENTRY;
       variables := EditListEntryMutationVariables anilistId options;
       optimisticResponse := None;
       update := Some (fun proxy data =>
         match data with
         | None => (Return tt, proxy)
         | Some EditListEntry =>
             if decide (p_status options = Some oldStatus)
             then (Return tt, proxy)
             else (Return tt,
                   addToCacheList (removeFromCacheList proxy anilistId)
                                  EditListEntry)
         end) |}
    c.

Definition updateStatus (server : Server) (anilistId : Z)
  (status : MediaListStatus) (c : Client) :=
  mutate server
    {| mutation := UPDATE_STATUS;
       variables := UpdateStatusVariables anilistId status;
       optimisticResponse :=
         Some (getOptimisticResponse (cache c) anilistId
                 {| p_id := None; p_score := None; p_progress := None;
                    p_rewatched := None; p_status := Some status |});
       update := Some (fun proxy data =>
         let proxy := removeFromCacheList proxy anilistId in
         match data with
         | None => (Throw TypeError, proxy)
         | Some UpdateStatus => (Return tt, addToCacheList proxy UpdateStatus)
         end) |}
    c.

Definition startRewatching (server : Server) (anilistId : Z) (c : Client) :=
  await_only (mutate server
    {| mutation := START_REWATCHING;
       variables := StartRewatchingVariables anilistId;
       optimisticResponse :=
         Some (getOptimisticResponse (cache c) anilistId
                 {| p_id := None; p_score := None; p_progress := Some 0;
                    p_rewatched := None; p_status := Some Repeating |});
       update := Some (fun cache data =>
         match data with
         | None => (Return tt, cache)
         | Some StartRewatching =>
             let cache := addToCacheList cache StartRewatching in
             let fakeEpisode :=
               {| provider := ProviderCrunchyroll;
                  animeId := mediaId StartRewatching;
                  episodeNumber := 0 |} in
             (Return tt, writeEpisodeProgressToCache cache fakeEpisode)
         end) |}
    c).

Definition updateScore (server : Server) (anilistId : Z) (score : Z)
  (c : Client) :=
  mutate server
    {| mutation := UPDATE_SCORE;
       variables := UpdateScoreVariables anilistId score;
       optimisticResponse :=
         Some (getOptimisticResponse (cache c) anilistId
                 {| p_id := None; p_score := Some score; p_progress := None;
                    p_rewatched := None; p_status := None |});
       update := None |}
    c.

Definition setProgress (server : Server) (options : EpisodeMutationObject)
  (c : Client) :=
  let progress := episodeNumber options in
  if progress <? 0
  then captureException (Error "Tried to set progress to -1") c
  else
    let variables := UpdateProgressVariables (animeId options) progress in
    let oldStatus :=
      status (getOptimisticResponse (cache c) (animeId options) no_values) in
    mutate server
      {| mutation := UPDATE_PROGRESS;
         variables := variables;
         optimisticResponse :=
           Some (getOptimisticResponse (cache c) (animeId options)
                   {| p_id := None; p_score := None;
                      p_progress := Some progress;
                      p_rewatched := None; p_status := None |});
         update := Some (fun cache data =>
           match data with
           | None => (Return tt, cache)
           | Some UpdateProgress =>
               let cache :=
                 if decide (oldStatus <> status UpdateProgress)
                 then addToCacheList
                        (removeFromCacheList cache (animeId options))
                        UpdateProgress
                 else cache in
               (Return tt, writeEpisodeProgressToCache cache options)
           end) |}
      c.

(** The seven list mutations, as calls. *)
Inductive ListMutation : Type :=
| AddToList (anilistId : Z)
| DeleteFromList (anilistId : Z)
| EditListEntry (anilistId : Z) (options : PartialListEntry)
| UpdateStatus (anilistId : Z) (status : MediaListStatus)
| StartRewatching (anilistId : Z)
| UpdateScore (anilistId : Z) (score : Z)
| UpdateProgress (options : EpisodeMutationObject).

Definition call (server : Server) (m : ListMutation) (c : Client)
  : Outcome Returned * Client :=
  match m with
  | AddToList anilistId => addToList server anilistId c
  | DeleteFromList anilistId => deleteFromList server anilistId c
  | EditListEntry anilistId options =>
      editListEntry server anilistId options c
  | UpdateStatus anilistId status => updateStatus server anilistId status c
  | StartRewatching anilistId => startRewatching server anilistId c
  | UpdateScore anilistId score => updateScore server anilistId score c
  | UpdateProgress options => setProgress server options c
  end.

End ListMutations.

(** * Vocabulary of the properties

    The notions that the properties below are stated with, and the data of
    their examples. *)

(** ** Numbers *)

Section NumbersVocabulary.
Import JS.

(** The binary64 numbers of the standard library's specification of
    IEEE 754, to compare the rounding with: the quotient of two integers
    and the difference of two doubles there, and the value of a
    result. *)
Definition binary64_div (n d : positive) : SpecFloat.spec_float :=
  SpecFloat.SFdiv 53 1024
    (SpecFloat.S754_finite false n 0) (SpecFloat.S754_finite false d 0).

Definition binary64_sub (x y : SpecFloat.spec_float) : SpecFloat.spec_float :=
  SpecFloat.SFsub 53 1024 x y.

Definition of_binary64 (x : SpecFloat.spec_float) : jsnum :=
  match x with
  | SpecFloat.S754_zero _ => Fin 0
  | SpecFloat.S754_infinity false => PInf
  | SpecFloat.S754_infinity true => NInf
  | SpecFloat.S754_nan => NaN
  | SpecFloat.S754_finite s m e =>
      Fin (scale (if s then Zneg m else Zpos m) e)
  end.

(** Values on which the two are compared: integers around 2^53, decimal
    fractions, the ends of the range of doubles, the subnormal numbers. *)
Definition rounding_samples : list (positive * positive) :=
  [(9007199254740993, 1); (9007199254740995, 1); (9007199254740994, 1);
   (33, 10); (11, 10); (1, 10); (1, 3); (5, 2);
   (100000000000000000001, 100000000000000000000);
   (Z.to_pos (10 ^ 309), 1); (Z.to_pos (10 ^ 308), 1);
   (Z.to_pos (2 ^ 1024 - 2 ^ 970), 1);
   (Z.to_pos (2 ^ 1024 - 2 ^ 970 - 1), 1);
   (1, Z.to_pos (10 ^ 400)); (5, Z.to_pos (10 ^ 324));
   (2, Z.to_pos (10 ^ 324));
   (22250738585072014, Z.to_pos (10 ^ 324))]%positive.

(** Doubles whose differences are compared. *)
Definition difference_samples : list (positive * positive) :=
  [(33, 10); (11, 10); (1, 10); (1, 3); (1, 1);
   (9007199254740993, 1); (5, Z.to_pos (10 ^ 324))]%positive.
End NumbersVocabulary.

(** ** Crunchyroll *)

Section CrunchyrollVocabulary.
Import JS Async Crunchyroll.
Import Types(Episode).

Definition is_integer (q : Q) : Prop := exists z : Z, (q == inject_Z z)%Q.

(** A number with a fractional part, such as 2.5. *)
Definition fractional (n : jsnum) : Prop :=
  exists q, n = Fin q /\ ~ is_integer q.

(** An infinity: the numeral is too large for a double. *)
Definition infinite (n : jsnum) : Prop := n = PInf \/ n = NInf.

Definition reduced (n : jsnum) : Prop :=
  match n with
  | Fin q => Qred q = q
  | _ => True
  end.

(** The integers that doubles count without gap. *)
Definition safe (z : Z) : Prop := - 2 ^ 53 < z < 2 ^ 53.

Definition numbers (episodes : list (Episode jsnum)) : list jsnum :=
  map Types.episodeNumber episodes.

Definition raw_numbers (episodes : list (Episode string)) : list jsnum :=
  map (fun ep => getEpisodeNumber (Types.episodeNumber ep)) episodes.

(** [firstRawNumber - 1], clamped so that it is never negative. *)
Definition shift (episodes : list (Episode string)) : jsnum :=
  match raw_numbers episodes with
  | firstRawNumber :: _ => max0 (sub firstRawNumber (of_Z 1))
  | [] => Fin 0
  end.

(** A raw entry with the given [episode_number]. *)
Definition media (episode_number : string) : _Media :=
  {| media_id := "GR3K";
     episode_number := episode_number;
     duration := 1420;
     name := "Episode";
     screenshot_image := None;
     url := "https://www.crunchyroll.com/media";
     playhead := 0 |}.

(** The numeral of 10^309, which is beyond the range of doubles. *)
Definition numeral_1e309 : string :=
  String "1" (string_of_list_ascii (repeat "0"%char 309)).

Definition episodes_numbered (ns : list string) : list (Episode string) :=
  imap (fun i n => mediaToEpisode 20 (media n) i) ns.

Definition marked_special (ep : _Media) : Prop :=
  episode_number ep = "SP" \/ episode_number ep = "".

(** Network scripts for the locale fetch. *)
Definition always_bad_session (n : nat)
  : Reply (CrunchyrollResponse (list _Locale)) :=
  Answered (CrunchyrollError "bad_session" "Invalid session").

Definition bad_then_locales (n : nat)
  : Reply (CrunchyrollResponse (list _Locale)) :=
  match n with
  | O => Answered (CrunchyrollError "bad_session" "Invalid session")
  | _ =>
      Answered
        (CrunchyrollSuccess [{| locale_id := "enUS"; label := "English" |}])
  end.

(** The first request gets no answer; a second one would. *)
Definition offline_then_locales (n : nat)
  : Reply (CrunchyrollResponse (list _Locale)) :=
  match n with
  | O => Failed "Request has been terminated"
  | _ =>
      Answered
        (CrunchyrollSuccess [{| locale_id := "enUS"; label := "English" |}])
  end.
End CrunchyrollVocabulary.

(** ** Hidive *)

Section SigningVocabulary.
Import Hidive.

Variables TOKEN APP_ID : string.
Variable sha256_hex : string -> string.
Variable formatUTC : Z -> string -> string.

(** The nonce in the words of the specification: the hash of the
    formatted current UTC timestamp followed by the shared secret. *)
Definition spec_nonce (now : Z) : string :=
  sha256_hex (formatUTC now "yyMMddHHmm" ++ TOKEN).

(** The session and device identifiers that enter the signature. *)
Definition identifiers (sess : Session) : list string :=
  [ipAddress sess; APP_ID; deviceId sess; visitId sess;
   pretty (userId sess); pretty (profileId sess)].

(** The signature in the words of the specification: the hash of the
    identifiers, the request body as it is serialised, the nonce and the
    secret, one after the other. *)
Definition spec_signature (sess : Session) (body nonce : string) : string :=
  sha256_hex
    (String.concat "" (identifiers sess ++ [body; nonce; TOKEN])%list).
End SigningVocabulary.

Section HidiveVocabulary.
Import Async Hidive.

Definition has_hyphen (s : string) : Prop :=
  "-"%char ∈ list_ascii_of_string s.

Definition has_line_terminator (s : string) : Prop :=
  exists c, c ∈ list_ascii_of_string s /\ is_line_terminator c = true.

(** The bodies of the requests of a trace, in the order they were sent. *)
Definition sent_bodies (trace : list (Event HidiveRequest)) : list Body :=
  omap (fun e => match e with Sent r => req_body r | Slept _ => None end)
       trace.

(** The first entry of the object whose key contains ['Japanese']. *)
Definition japanese_entry (videoUrls : Obj VideoUrl) : option VideoUrl :=
  snd <$> List.find (fun kv => includes "Japanese" (fst kv)) videoUrls.

(** A transport failure, or a response that the provider rejected. *)
Definition rejected {D} (response : HidiveResponse D) : Prop :=
  ok response = false \/ Code response <> 0.

Definition title_1234 : _Title :=
  {| Id := 1234; TitleName := "Made in Abyss"; RunTime := 25;
     Episodes := [] |}.

(** Two episodes whose video keys hold hyphens. *)
Definition episode_s01_e001 : _Episode :=
  {| EpisodeNumberValue := 1; Name := "The City of the Great Pit";
     ScreenShotSmallUrl := "//static.hidive.com/s01e001.jpg";
     VideoKey := "s01-e001" |}.

Definition episode_s01_e002 : _Episode :=
  {| EpisodeNumberValue := 2; Name := "Resurrection Festival";
     ScreenShotSmallUrl := "https://static.hidive.com/s01e002.jpg";
     VideoKey := "s01-e002" |}.

(** A video key with a line feed in it, and no hyphen. *)
Definition episode_line_feed : _Episode :=
  {| EpisodeNumberValue := 1; Name := "Episode 1";
     ScreenShotSmallUrl := "//static.hidive.com/s01e001.jpg";
     VideoKey := "s01" ++ String "010"%char "e001" |}.

(** An accepted answer to [GetTitle]: a title with three episodes; two of
    the keys differ in their last character only, and hold a hyphen. *)
Definition three_episodes : HidiveResponse _Title :=
  {| ok := true; Code := 0;
     Data := {| Id := 1234; TitleName := "Made in Abyss"; RunTime := 25;
                Episodes := [episode_s01_e001; episode_s01_e002;
                             episode_line_feed] |} |}.

(** A client configuration to run the examples with; the properties hold
    for every digest, serialiser, clock and configuration string. *)
Definition example_digest (s : string) : string := "sha256:" ++ s.
Definition example_stringify (b : Body) : string :=
  match b with
  | InitDeviceBody n => "{DeviceName:" ++ n ++ "}"
  | AuthenticateBody e p => "{Email:" ++ e ++ ",Password:" ++ p ++ "}"
  | GetTitleBody i => "{Id:" ++ pretty i ++ "}"
  | GetVideosBody t k => "{TitleId:" ++ t ++ ",VideoKey:" ++ k ++ "}"
  end.
Definition example_formatUTC (date : Z) (pattern : string) : string :=
  pretty date.

(** A zone two hours behind UTC all year, and the zone of Stockholm in
    the spring of 2019: one hour ahead of UTC until 2019-03-31 01:00 UTC,
    two hours from then on. *)
Definition fixed_zone (date : Z) : Z := 120.

Definition stockholm_2019 (date : Z) : Z :=
  if date <? 1553994000000 then -60 else -120.

Definition example_fetchStream :=
  fetchStream "token" "client" example_digest example_stringify fixed_zone
    example_formatUTC.

Definition example_fetchEpisodesById :=
  fetchEpisodesById "token" "client" example_digest example_stringify
    fixed_zone example_formatUTC.

Definition response_of (videoUrls : Obj VideoUrl) (n : nat)
  : Reply (HidiveResponse _Stream) :=
  Answered
    {| ok := true; Code := 0;
       Data := {| CaptionLanguages := ["English"];
                  CaptionVttUrls :=
                    [("English", "https://cdn.hidive.com/en.vtt")];
                  CurrentTime := 0;
                  VideoUrls := videoUrls |} |}.

Definition subbed_and_dubbed : Obj VideoUrl :=
  [("English, English Subs",
    {| hls := ["https://cdn.hidive.com/dub.m3u8"] |});
   ("Japanese, English Subs",
    {| hls := ["https://cdn.hidive.com/sub.m3u8"] |})].

Definition session_0 : Session :=
  {| deviceId := "d"; visitId := "v"; ipAddress := "10.0.0.1";
     userId := 0; profileId := 0 |}.
End HidiveVocabulary.

Section SlugVocabulary.
Import JS Hidive.

Definition is_lower (c : ascii) : bool :=
  let n := N_of_ascii c in ((97 <=? n) && (n <=? 122))%N.

(** The characters of a url slug: lower-case letters, digits, hyphens. *)
Definition slug_char (c : ascii) : bool :=
  is_lower c || is_digit c || is_hyphen c.

Fixpoint adjacent_hyphens (s : string) : bool :=
  match s with
  | String a (String b _ as s') =>
      (is_hyphen a && is_hyphen b) || adjacent_hyphens s'
  | _ => false
  end.

Definition starts_with_hyphen (s : string) : bool :=
  match s with
  | String c _ => is_hyphen c
  | EmptyString => false
  end.

Fixpoint ends_with_hyphen (s : string) : bool :=
  match s with
  | EmptyString => false
  | String c EmptyString => is_hyphen c
  | String _ s' => ends_with_hyphen s'
  end.

(** An address that starts with two slashes. *)
Definition protocol_relative (s : string) : bool :=
  match s with
  | String "/" (String "/" _) => true
  | _ => false
  end.

(** A slug: slug characters only, hyphens single and inside. *)
Definition is_slug (s : string) : Prop :=
  all_chars slug_char s = true
  /\ adjacent_hyphens s = false
  /\ starts_with_hyphen s = false
  /\ ends_with_hyphen s = false.
End SlugVocabulary.

(** ** List mutations *)

Section MutationsVocabulary.
Import Async ListMutations.
Import Types(ProviderCrunchyroll, ProviderHidive).

(** How many entries of the bucket [s] are for [anilistId]. *)
Definition occurrences (c : Cache) (s : MediaListStatus) (anilistId : Z)
  : nat :=
  length (List.filter (fun e => mediaId e =? anilistId) (lists c s)).

Definition appears (c : Cache) (s : MediaListStatus) (anilistId : Z)
  : Prop :=
  exists e, In e (lists c s) /\ mediaId e = anilistId.



(** The sentinel entry that stands for an anime without cached entry. *)
Definition sentinel (anilistId : Z) : ListEntry :=
  {| id := -1; mediaId := anilistId; score := -1; progress := -1;
     rewatched := -1; status := Planning |}.

Definition last_known (c : Cache) (anilistId : Z) : ListEntry :=
  default (sentinel anilistId) (data c !! anilistId).


Definition empty_cache : Cache :=
  {| data := ∅; animePage := ∅; lists := fun _ => [];
     episodeProgress := fun _ => ∅ |}.

Definition new_client (c : Cache) : Client :=
  {| cache := c; dispatched := []; captured := []; logged := [];
     inflight := [] |}.

(** A service that accepts status changes and rewatches, and fails on
    every other mutation. *)
Definition planning_to_current (m : MutationDocument) (v : Variables)
  : FetchResult :=
  match v with
  | UpdateStatusVariables anilistId status =>
      Resolved (Some {| id := 7; mediaId := anilistId; score := 80;
                        progress := 3; rewatched := 0; status := status |})
  | StartRewatchingVariables anilistId =>
      Resolved (Some {| id := 7; mediaId := anilistId; score := 80;
                        progress := 0; rewatched := 1; status := Repeating |})
  | _ => Rejected "Network error"
  end.

(** A service that answers every mutation with the same entry. *)
Definition answers (d : ListEntry) (m : MutationDocument) (v : Variables)
  : FetchResult :=
  Resolved (Some d).

Definition entry_21 : ListEntry :=
  {| id := 7; mediaId := 21; score := 80; progress := 3; rewatched := 0;
     status := Planning |}.

(** A cache that holds the entry of anime 21 in the bucket [Planning]. *)
Definition cache_21 : Cache :=
  addToCacheList (writeResult empty_cache (Some entry_21)) entry_21.
End MutationsVocabulary.

(** Unfolds the plumbing of [IO], which leaves the trace and the outcome. *)
Ltac run_io :=
unfold Async.run, mbind, mret, IO_bind, IO_ret, Async.bind, Async.ret,
  Async.send, Async.delay, Async.throw, Async.requests;
cbn.

(** * Properties *)

(** ** The embedding on concrete inputs *)

Section Evaluation.
Import JS Crunchyroll Hidive.

(** The rounding agrees with the standard library's IEEE 754 on the
    samples, for the conversion of a quotient and for the difference of
    any two of the doubles. *)
Example round64_binary64 :
  map (fun '(n, d) => round64 (Zpos n # d)) rounding_samples
  = map (fun '(n, d) => of_binary64 (binary64_div n d)) rounding_samples
  /\ map (fun '((n, d), (n', d')) =>
            sub (round64 (Zpos n # d)) (round64 (Zpos n' # d')))
         (list_prod difference_samples difference_samples)
     = map (fun '((n, d), (n', d')) =>
              of_binary64
                (binary64_sub (binary64_div n d) (binary64_div n' d')))
           (list_prod difference_samples difference_samples).
Proof. split; vm_compute; reflexivity. Qed.

Example getEpisodeNumber_examples :
  map getEpisodeNumber ["12"; "2.5"; "Episode 7"; "SP"; ""; "1.2.3"; "."]
  = [Fin 12; Fin (5 # 2); Fin 7; Fin 0; Fin 0; NaN; NaN].
Proof. reflexivity. Qed.

(** Numerals that are not doubles are rounded: the integer after 2^53
    goes to 2^53, a long fraction to 1, 3.3 to the double next to it. *)
Example getEpisodeNumber_rounds :
  map getEpisodeNumber
      ["9007199254740993"; "1.00000000000000000001"; "3.3"]
  = [Fin 9007199254740992; Fin 1;
     Fin (3715469692580659 # 1125899906842624)].
Proof. vm_compute. reflexivity. Qed.

(** 3.3 - (1.1 - 1) is the double 3.1999999999999997, not 3.2; and above
    2^53 the first episode is not numbered 1: 9007199254740994 - 1 rounds
    to 9007199254740992. *)
Example fixEpisodeNumbers_rounds :
  numbers (fixEpisodeNumbers (episodes_numbered ["1.1"; "3.3"]))
  = [Fin 1; Fin (7205759403792793 # 2251799813685248)]
  /\ numbers (fixEpisodeNumbers (episodes_numbered ["9007199254740994"]))
     = [Fin 2].
Proof. split; vm_compute; reflexivity. Qed.

Example isRealEpisode_examples :
  map (fun n => isRealEpisode (media n)) ["1"; "12"; "2.5"; "SP"; ""; "0"]
  = [true; true; false; false; false; true].
Proof. reflexivity. Qed.

(** A long fraction that rounds to 1 is kept, a numeral that rounds to
    an infinity is dropped. *)
Example isRealEpisode_rounds :
  map (fun n => isRealEpisode (media n))
      ["1.00000000000000000001"; "9007199254740993"; numeral_1e309]
  = [true; true; false]
  /\ getEpisodeNumber numeral_1e309 = PInf.
Proof. split; vm_compute; reflexivity. Qed.

Example normalizeEpisodes_example :
  numbers (normalizeEpisodes 20
             [media "SP"; media "13"; media "13.5"; media "14"; media "15"])
  = [Fin 1; Fin 2; Fin 3].
Proof. reflexivity. Qed.

Example match_id_examples :
  map match_id ["1234-s01e001"; "1234-s01-e001"; "1234"; "-7-ova"]
  = [Some ("1234", "s01e001"); Some ("1234-s01", "e001"); None;
     Some ("-7", "ova")].
Proof. reflexivity. Qed.

Example convertName_example :
  convertName "Made in Abyss: Dawn of the Deep Soul!"
  = "made-in-abyss-dawn-of-the-deep-soul".
Proof. reflexivity. Qed.
End Evaluation.

(** ** Numbers *)

Section Numbers.
Import JS.

Lemma Qred_inject_Z (z : Z) : Qred (inject_Z z) = inject_Z z.
Proof.
  unfold inject_Z, Qred. simpl.
  pose proof (Z.ggcd_gcd z 1) as Hg.
  pose proof (Z.ggcd_correct_divisors z 1) as Hd.
  destruct (Z.ggcd z 1) as [g [a b]]. simpl in *.
  rewrite Z.gcd_1_r in Hg. subst g. destruct Hd as [-> Hb].
  assert (b = 1) by lia. subst b. f_equal. destruct a; reflexivity.
Qed.

Lemma Qred_Qred (q : Q) : Qred (Qred q) = Qred q.
Proof. apply Qred_complete, Qred_correct. Qed.

Lemma scale_reduced (m e : Z) : Qred (scale m e) = scale m e.
Proof.
  unfold scale. destruct (0 <? e); [apply Qred_inject_Z | apply Qred_Qred].
Qed.

Lemma round64_reduced (q : Q) : reduced (round64 q).
Proof.
  unfold round64.
  destruct (Qnum q); [reflexivity | |];
    destruct (round_pos _ _) as [[m e]|]; cbn; try exact I;
    apply scale_reduced.
Qed.

Lemma Number_reduced (s : string) : reduced (Number s).
Proof.
  unfold Number. destruct (split_dot s) as [i [f|]].
  - destruct (_ && _); [apply round64_reduced | exact I].
  - destruct (all_chars _ _); [apply round64_reduced | exact I].
Qed.

(** *** What rounding keeps non-negative *)

Lemma round_half_even_nonneg (a b : Z) :
  0 <= a -> 0 < b -> 0 <= round_half_even a b.
Proof.
  intros Ha Hb. unfold round_half_even.
  pose proof (Z.div_pos a b Ha Hb).
  destruct (_ ?= _); [destruct (Z.even _) |..]; lia.
Qed.

Lemma round_pos_nonneg (n d : positive) (m e : Z) :
  round_pos n d = Some (m, e) -> 0 <= m.
Proof.
  unfold round_pos. set (e0 := Z.max _ _).
  destruct (0 <? e0) eqn:He.
  - destruct (_ <=? _); [discriminate |]. intros [= <- _].
    apply Z.ltb_lt in He. apply round_half_even_nonneg; [lia |].
    apply Z.mul_pos_pos; [lia |]. apply Z.pow_pos_nonneg; lia.
  - intros [= <- _]. apply round_half_even_nonneg; [| lia].
    apply Z.mul_nonneg_nonneg; [lia |]. apply Z.pow_nonneg. lia.
Qed.

Lemma scale_nonneg (m e : Z) : 0 <= m -> (0 <= scale m e)%Q.
Proof.
  intros Hm. unfold scale. destruct (0 <? e).
  - change 0%Q with (inject_Z 0). rewrite <- Zle_Qle.
    apply Z.mul_nonneg_nonneg; [exact Hm |]. apply Z.pow_nonneg. lia.
  - rewrite Qred_correct. unfold Qle. simpl. lia.
Qed.

Lemma round64_nonneg (q v : Q) :
  0 <= Qnum q -> round64 q = Fin v -> (0 <= v)%Q.
Proof.
  unfold round64. destruct (Qnum q) as [|n|n]; [| | lia]; intros _.
  - intros [= <-]. apply Qle_refl.
  - destruct (round_pos n (Qden q)) as [[m e]|] eqn:E; [| discriminate].
    intros [= <-]. apply scale_nonneg. apply (round_pos_nonneg _ _ _ _ E).
Qed.

Lemma Number_nonneg (s : string) (q : Q) : Number s = Fin q -> (0 <= q)%Q.
Proof.
  unfold Number. destruct (split_dot s) as [i [f|]].
  - destruct (_ && _); [| discriminate].
    apply round64_nonneg. simpl. lia.
  - destruct (all_chars _ _); [| discriminate].
    apply round64_nonneg. simpl. lia.
Qed.

(** *** Integers below 2^53 are doubles *)

Lemma round_half_even_1 (a : Z) : round_half_even a 1 = a.
Proof.
  unfold round_half_even. rewrite Z.mod_1_r, Z.div_1_r. reflexivity.
Qed.

Lemma log2_floor_1 (n : positive) : log2_floor n 1 = Z.log2 (Zpos n).
Proof.
  unfold log2_floor. change (Z.log2 1) with 0. rewrite Z.sub_0_r.
  pose proof (Z.log2_nonneg (Zpos n)) as Hk.
  pose proof (Z.log2_spec (Zpos n) eq_refl) as [Hle _].
  destruct (0 <=? Z.log2 (Zpos n)) eqn:E; [| apply Z.leb_gt in E; lia].
  rewrite Z.mul_1_l. apply Z.leb_le in Hle. rewrite Hle. reflexivity.
Qed.

Lemma round_pos_integer (n : positive) :
  Zpos n < 2 ^ 53 ->
  round_pos n 1
  = Some (Zpos n * 2 ^ (52 - Z.log2 (Zpos n)), - (52 - Z.log2 (Zpos n))).
Proof.
  intros Hn. unfold round_pos. rewrite log2_floor_1.
  pose proof (Z.log2_nonneg (Zpos n)) as Hk.
  assert (Z.log2 (Zpos n) < 53) as Hk53
    by (apply Z.log2_lt_pow2; [reflexivity | exact Hn]).
  rewrite Z.max_l by lia.
  destruct (0 <? Z.log2 (Zpos n) - 52) eqn:E; [apply Z.ltb_lt in E; lia |].
  rewrite round_half_even_1. f_equal. f_equal; [f_equal; f_equal |]; lia.
Qed.

Lemma scale_exact (z j : Z) : 0 <= j -> scale (z * 2 ^ j) (- j) = inject_Z z.
Proof.
  intros Hj. unfold scale.
  destruct (0 <? - j) eqn:E; [apply Z.ltb_lt in E; lia |].
  rewrite Z.opp_involutive.
  transitivity (Qred (inject_Z z)); [| apply Qred_inject_Z].
  apply Qred_complete. unfold Qeq, inject_Z. cbn [Qnum Qden].
  rewrite Z2Pos.id by (apply Z.pow_pos_nonneg; lia). lia.
Qed.

Lemma round64_of_Z (z : Z) : safe z -> round64 (inject_Z z) = of_Z z.
Proof.
  unfold safe, round64, of_Z. intros Hz.
  destruct z as [|n|n]; cbn [inject_Z Qnum Qden]; [reflexivity | |].
  - rewrite round_pos_integer by lia. f_equal. apply scale_exact.
    assert (Z.log2 (Zpos n) < 53)
      by (apply Z.log2_lt_pow2; [reflexivity | lia]).
    lia.
  - rewrite round_pos_integer by lia. f_equal.
    rewrite <- Z.mul_opp_l. change (- Zpos n) with (Zneg n).
    apply scale_exact.
    assert (Z.log2 (Zpos n) < 53)
      by (apply Z.log2_lt_pow2; [reflexivity | lia]).
    lia.
Qed.

Lemma inject_Z_minus (a b : Z) :
  (inject_Z a - inject_Z b)%Q = inject_Z (a - b).
Proof.
  unfold Qminus, Qplus, Qopp, inject_Z. cbn [Qnum Qden Pos.mul].
  f_equal. lia.
Qed.

Lemma sub_of_Z (a b : Z) :
  safe (a - b) -> sub (of_Z a) (of_Z b) = of_Z (a - b).
Proof.
  intros H. unfold sub, of_Z. rewrite inject_Z_minus.
  apply round64_of_Z, H.
Qed.

Lemma max0_of_Z (a : Z) : max0 (of_Z a) = of_Z (Z.max 0 a).
Proof.
  unfold max0, of_Z. destruct (Qle_bool 0 (inject_Z a)) eqn:E.
  - apply Qle_bool_iff in E. change 0%Q with (inject_Z 0) in E.
    rewrite <- Zle_Qle in E. rewrite Z.max_r by exact E. reflexivity.
  - assert (a < 0) as Ha.
    { destruct (Z.lt_ge_cases a 0) as [? | Hge]; [assumption |].
      exfalso. apply not_true_iff_false in E. apply E.
      apply Qle_bool_iff. change 0%Q with (inject_Z 0).
      rewrite <- Zle_Qle. exact Hge. }
    rewrite Z.max_l by lia. reflexivity.
Qed.

Lemma of_Z_inj (a b : Z) : of_Z a = of_Z b -> a = b.
Proof. unfold of_Z, inject_Z. intros [= H]. exact H. Qed.
End Numbers.

(** ** Renumbering and filtering of Crunchyroll episodes *)

Section Normaliser.
Import JS Crunchyroll.
Import Types(Episode).

Lemma getEpisodeNumber_reduced (num : string) : reduced (getEpisodeNumber num).
Proof. apply Number_reduced. Qed.

Lemma fixEpisodeNumbers_map (episodes : list (Episode string)) :
  fixEpisodeNumbers episodes =
  map (fun ep => set_episodeNumber ep
                   (sub (getEpisodeNumber (Types.episodeNumber ep))
                        (shift episodes)))
      episodes.
Proof. destruct episodes as [|ep0 rest]; reflexivity. Qed.

Lemma numbers_fixEpisodeNumbers (episodes : list (Episode string)) :
  numbers (fixEpisodeNumbers episodes) =
  map (fun raw => sub raw (shift episodes)) (raw_numbers episodes).
Proof.
  rewrite fixEpisodeNumbers_map. unfold numbers, raw_numbers.
  rewrite !map_map. reflexivity.
Qed.

Lemma shift_of_Z (ep0 : Episode string) (rest : list (Episode string))
  (z0 : Z) :
  getEpisodeNumber (Types.episodeNumber ep0) = of_Z z0 ->
  0 <= z0 < 2 ^ 53 ->
  shift (ep0 :: rest) = of_Z (Z.max 0 (z0 - 1)).
Proof.
  intros H0 Hz0. unfold shift, raw_numbers. cbn [map]. rewrite H0.
  rewrite sub_of_Z by (unfold safe; lia). apply max0_of_Z.
Qed.

Lemma sub_shift_of_Z (z z0 : Z) :
  0 <= z < 2 ^ 53 -> 0 <= z0 < 2 ^ 53 ->
  sub (of_Z z) (of_Z (Z.max 0 (z0 - 1))) = of_Z (z - Z.max 0 (z0 - 1)).
Proof. intros Hz Hz0. apply sub_of_Z. unfold safe. lia. Qed.

Lemma numbers_of_Z (episodes : list (Episode string)) (z0 : Z)
  (zs : list Z) :
  raw_numbers episodes = map of_Z (z0 :: zs) ->
  Forall (fun z => 0 <= z < 2 ^ 53) (z0 :: zs) ->
  shift episodes = of_Z (Z.max 0 (z0 - 1))
  /\ numbers (fixEpisodeNumbers episodes)
     = map (fun z => of_Z (z - Z.max 0 (z0 - 1))) (z0 :: zs).
Proof.
  intros Hraw Hall.
  assert (Hz0 : 0 <= z0 < 2 ^ 53) by (inversion Hall; assumption).
  assert (Hshift : shift episodes = of_Z (Z.max 0 (z0 - 1))).
  { destruct episodes as [|ep0 rest]; [discriminate |].
    apply shift_of_Z; [| exact Hz0].
    unfold raw_numbers in Hraw. cbn [map] in Hraw. congruence. }
  split; [exact Hshift |].
  rewrite numbers_fixEpisodeNumbers, Hraw, Hshift, map_map.
  apply map_ext_in. intros z Hz. rewrite List.Forall_forall in Hall.
  apply sub_shift_of_Z; [apply Hall, Hz | exact Hz0].
Qed.

(** C1, as amended: for every list of episodes, [fixEpisodeNumbers]
    keeps the episodes, their order and their other fields, and gives each
    the number [rawNumber - max(0, firstRawNumber - 1)], computed on
    doubles.  When the raw numbers are whole numbers below 2^53, the
    differences are exact: every episode keeps its offset from the first,
    the first episode is numbered 1 whenever its raw number is at least 1,
    and when it is 0 the clamp makes the shift 0 and every number stays
    what it was.  The numbers 3, 4, 5 become 1, 2, 3. *)
Theorem fixEpisodeNumbers_renumbers (episodes : list (Episode string)) :
  fixEpisodeNumbers episodes =
    map (fun ep => set_episodeNumber ep
                     (sub (getEpisodeNumber (Types.episodeNumber ep))
                          (shift episodes)))
        episodes
  /\ (forall z0 zs,
        raw_numbers episodes = map of_Z (z0 :: zs) ->
        Forall (fun z => 0 <= z < 2 ^ 53) (z0 :: zs) ->
        shift episodes = of_Z (Z.max 0 (z0 - 1))
        /\ numbers (fixEpisodeNumbers episodes)
           = map (fun z => of_Z (z - Z.max 0 (z0 - 1))) (z0 :: zs)
        /\ (1 <= z0 ->
            head (numbers (fixEpisodeNumbers episodes)) = Some (of_Z 1))
        /\ (z0 = 0 ->
            numbers (fixEpisodeNumbers episodes) = raw_numbers episodes))
  /\ numbers (fixEpisodeNumbers (episodes_numbered ["3"; "4"; "5"]))
     = [Fin 1; Fin 2; Fin 3].
Proof.
  split; [apply fixEpisodeNumbers_map |]. split; [| reflexivity].
  intros z0 zs Hraw Hall.
  destruct (numbers_of_Z episodes z0 zs Hraw Hall) as [Hshift Hnum].
  split; [exact Hshift |]. split; [exact Hnum |]. split.
  - intros Hge. rewrite Hnum. cbn [map head]. do 2 f_equal. lia.
  - intros ->. rewrite Hnum, Hraw. apply map_ext. intros z.
    f_equal. lia.
Qed.

Lemma fixEpisodeNumbers_renumbers_witness :
  head (numbers (fixEpisodeNumbers (episodes_numbered ["12"; "13"; "15"])))
    = Some (of_Z 1)
  /\ numbers (fixEpisodeNumbers (episodes_numbered ["12"; "13"; "15"]))
     = [of_Z 1; of_Z 2; of_Z 4].
Proof.
  destruct (proj1 (proj2
    (fixEpisodeNumbers_renumbers (episodes_numbered ["12"; "13"; "15"])))
    12 [13; 15] eq_refl) as (_ & Hnum & Hhead & _).
  - repeat constructor; lia.
  - split; [apply Hhead; lia | exact Hnum].
Defined.

(** C1, as stated, fails on a season that starts with an episode 0: the
    three entries are retained, and the first keeps the number 0. *)
Lemma fixEpisodeNumbers_first_not_1 :
  List.filter isRealEpisode [media "0"; media "1"; media "2"]
    = [media "0"; media "1"; media "2"]
  /\ numbers (normalizeEpisodes 20 [media "0"; media "1"; media "2"])
     = [Fin 0; Fin 1; Fin 2]
  /\ head (numbers (fixEpisodeNumbers (episodes_numbered ["0"; "1"; "2"])))
     <> Some (Fin 1).
Proof. repeat split; [reflexivity.. | discriminate]. Qed.

Lemma Qtrunc_integer (q : Q) (z : Z) : (q == inject_Z z)%Q -> Qtrunc q = z.
Proof.
  unfold Qeq, inject_Z, Qtrunc. simpl. intros H.
  rewrite Z.mul_1_r in H. rewrite H. apply Z.quot_mul. discriminate.
Qed.

Lemma rem1_zero_iff (q : Q) :
  strict_neq0 (rem1 (Fin q)) = false <-> is_integer q.
Proof.
  simpl. rewrite negb_false_iff, Qeq_bool_iff, Qred_correct. split.
  - intros H. exists (Qtrunc q).
    apply (Qplus_inj_r _ _ (- inject_Z (Qtrunc q))).
    rewrite Qplus_opp_r. exact H.
  - intros [z Hz]. rewrite (Qtrunc_integer q z Hz), Hz. ring.
Qed.

Lemma episodeNumberIsHalf_iff (ep : _Media) :
  episodeNumberIsHalf ep = true <->
  getEpisodeNumber (episode_number ep) = NaN
  \/ infinite (getEpisodeNumber (episode_number ep))
  \/ fractional (getEpisodeNumber (episode_number ep)).
Proof.
  unfold episodeNumberIsHalf, infinite.
  destruct (getEpisodeNumber (episode_number ep)) as [| | |q] eqn:E.
  - simpl. split; [left; reflexivity | reflexivity].
  - simpl. split; [right; left; left; reflexivity | reflexivity].
  - simpl. split; [right; left; right; reflexivity | reflexivity].
  - rewrite <- not_false_iff_true, rem1_zero_iff. split.
    + intros H. right. right. exists q. split; [reflexivity | exact H].
    + intros [H | [[H | H] | (q' & Hq' & H)]]; try discriminate.
      injection Hq' as ->. exact H.
Qed.

Lemma isSpecialEpisode_iff (ep : _Media) :
  isSpecialEpisode ep = true <-> marked_special ep.
Proof.
  unfold isSpecialEpisode, marked_special.
  rewrite orb_true_iff, !String.eqb_eq. reflexivity.
Qed.

(** C6, as amended: for every raw media entry, [isRealEpisode] returns
    false exactly when the episode number is not a whole number, be it
    fractional (2.5), not a number at all (the digits and dots of
    ["1.2.3"] convert to NaN) or infinite (a numeral beyond the range of
    doubles), or the entry is marked as a special ([episode_number] equal
    to ["SP"] or the empty string); it returns true otherwise.  The
    number is the double that the digits and dots convert to. *)
Theorem isRealEpisode_false_iff (ep : _Media) :
  (isRealEpisode ep = false <->
     (getEpisodeNumber (episode_number ep) = NaN
      \/ infinite (getEpisodeNumber (episode_number ep))
      \/ fractional (getEpisodeNumber (episode_number ep)))
     \/ marked_special ep)
  /\ (isRealEpisode ep = true <->
        ~ ((getEpisodeNumber (episode_number ep) = NaN
            \/ infinite (getEpisodeNumber (episode_number ep))
            \/ fractional (getEpisodeNumber (episode_number ep)))
           \/ marked_special ep)).
Proof.
  assert (H : isRealEpisode ep = false <->
     (getEpisodeNumber (episode_number ep) = NaN
      \/ infinite (getEpisodeNumber (episode_number ep))
      \/ fractional (getEpisodeNumber (episode_number ep)))
     \/ marked_special ep).
  { unfold isRealEpisode, anyPass. cbn [existsb].
    rewrite negb_false_iff, orb_false_r, orb_true_iff.
    rewrite episodeNumberIsHalf_iff, isSpecialEpisode_iff. reflexivity. }
  split; [exact H |].
  rewrite <- H. destruct (isRealEpisode ep); split; congruence.
Qed.

(** C6, as stated, fails on an entry whose [episode_number] is ["1.2.3"]:
    it has no fractional number (it has no number at all) and is not
    marked as a special, and [isRealEpisode] returns false. *)
Lemma isRealEpisode_not_a_number :
  ~ (isRealEpisode (media "1.2.3") = false <->
       fractional (getEpisodeNumber (episode_number (media "1.2.3")))
       \/ marked_special (media "1.2.3")).
Proof.
  intros [H _]. destruct (H eq_refl) as [(q & Hq & _) | [Hs | Hs]];
    discriminate.
Qed.
End Normaliser.

(** ** The locale fetch *)

Section Locales.
Import Async Crunchyroll.

(** C8, as amended: [fetchLocales] sends [list_locales]; when the answer
    is an error response it waits 1500 ms and sends the request once
    more, and that is the only retry.  It returns the locale list of the
    first attempt that succeeds, and throws the message of the second
    error response when both attempts are answered with one.  A request
    that fails in transport is not retried: its rejection is thrown at
    once, after the first request without any delay, after the second as
    it comes. *)
Theorem fetchLocales_retries_once
  (net : nat -> Reply (CrunchyrollResponse (list _Locale))) :
  let outcome := fst (run fetchLocales net) in
  let trace := snd (run fetchLocales net) in
  (forall data,
     net 0%nat = Answered (CrunchyrollSuccess data) ->
     outcome = Return data /\ trace = [Sent "list_locales"])
  /\ (forall message,
        net 0%nat = Failed message ->
        outcome = Throw (Error message) /\ trace = [Sent "list_locales"])
  /\ (forall code message,
        net 0%nat = Answered (CrunchyrollError code message) ->
        trace = [Sent "list_locales"; Slept 1500; Sent "list_locales"]
        /\ (forall data,
              net 1%nat = Answered (CrunchyrollSuccess data) ->
              outcome = Return data)
        /\ (forall code' message',
              net 1%nat = Answered (CrunchyrollError code' message') ->
              outcome = Throw (Error message'))
        /\ (forall message',
              net 1%nat = Failed message' ->
              outcome = Throw (Error message')))
  /\ (1 <= requests trace <= 2)%nat.
Proof.
  unfold fetchLocales, request. run_io.
  destruct (net 0%nat) as [[data0 | code0 message0] | failure0]; cbn.
  - repeat split; try lia; intros; simplify_eq; reflexivity.
  - destruct (net 1%nat) as [[data1 | code1 message1] | failure1]; cbn;
      repeat split; try lia; intros; simplify_eq; reflexivity.
  - repeat split; try lia; intros; simplify_eq; reflexivity.
Qed.

Lemma fetchLocales_retries_once_witness :
  run fetchLocales always_bad_session
    = (Throw (Error "Invalid session"),
       [Sent "list_locales"; Slept 1500; Sent "list_locales"])
  /\ exists data, fst (run fetchLocales bad_then_locales) = Return data.
Proof.
  split; [reflexivity |].
  destruct (proj1 (proj2 (proj2 (fetchLocales_retries_once bad_then_locales)))
              "bad_session" "Invalid session" eq_refl) as (_ & Hok & _).
  eexists. exact (Hok _ eq_refl).
Defined.

(** C8, as stated, fails on a first request that gets no answer: the
    rejection of the request is thrown after that one request, without
    delay and without the retry that would have succeeded. *)
Lemma fetchLocales_no_retry_offline :
  run fetchLocales offline_then_locales
  = (Throw (Error "Request has been terminated"), [Sent "list_locales"]).
Proof. reflexivity. Qed.
End Locales.

(** ** Hidive request signing *)

Section HidiveSigning.
Import Async Hidive.

Variables TOKEN APP_ID : string.
Variable sha256_hex : string -> string.
Variable JSON_stringify : Body -> string.
Variable timezoneOffset : Z -> Z.
Variable formatUTC : Z -> string -> string.

(** The instant whose UTC date the nonce is made of: the current instant,
    moved by the difference between the offset of the zone now and its
    offset at the instant that [getUTCDate] returns. *)
Lemma format_getUTCDate (now : Z) (pattern : string) :
  format timezoneOffset formatUTC (getUTCDate timezoneOffset now) pattern
  = formatUTC
      (now + (timezoneOffset now
              - timezoneOffset (getUTCDate timezoneOffset now)) * 60 * 1000)
      pattern.
Proof.
  unfold format, getUTCDate, getTimezoneOffset. f_equal. lia.
Qed.

Lemma append_assoc (a b c : string) : (a ++ b) ++ c = a ++ (b ++ c).
Proof.
  induction a as [|x a IH]; [reflexivity |].
  change (String x ((a ++ b) ++ c) = String x (a ++ (b ++ c))).
  f_equal. exact IH.
Qed.

Lemma generateNonce_spec (now : Z) :
  timezoneOffset (getUTCDate timezoneOffset now) = timezoneOffset now ->
  generateNonce TOKEN sha256_hex timezoneOffset formatUTC now
  = spec_nonce TOKEN sha256_hex formatUTC now.
Proof.
  intros Hzone. unfold generateNonce, spec_nonce.
  rewrite format_getUTCDate, Hzone. do 3 f_equal. lia.
Qed.

Lemma generateSignature_spec (sess : Session) (nonce : string)
  (body : option Body) :
  generateSignature TOKEN APP_ID sha256_hex JSON_stringify sess nonce body
  = spec_signature TOKEN APP_ID sha256_hex sess
      match body with
      | Some b => JSON_stringify b
      | None => "undefined"
      end
      nonce.
Proof.
  unfold generateSignature, spec_signature, identifiers, stringify_body.
  f_equal. cbn [app String.concat]. rewrite !append_assoc. reflexivity.
Qed.

(** X21: a Hidive request is one POST of the given type with the given
    body.  Its signature is the hash of the identifiers (IP address,
    application id, device id, visit id, user id, profile id), the
    serialisation of the body that is sent (the word [undefined] for a
    request without body), the nonce of its [X-Nonce] header and the
    secret, concatenated in this order.  Where the offset of the zone is
    the same now and at the instant [getUTCDate] returns, the nonce is the
    hash of the current UTC time, formatted as [yyMMddHHmm], followed by
    the secret. *)
Theorem request_signed {D} (sess : Session) (now : Z)
  (type : RequestType) (body : option Body)
  (net : nat -> Reply (HidiveResponse D)) :
  exists req,
    snd (run (request TOKEN APP_ID sha256_hex JSON_stringify
                timezoneOffset formatUTC sess now type body) net)
      = [Sent req]
    /\ req_type req = type
    /\ req_body req = body
    /\ X_Signature (req_headers req)
       = sha256_hex
           (String.concat ""
              [ipAddress sess; APP_ID; deviceId sess; visitId sess;
               pretty (userId sess); pretty (profileId sess);
               match body with
               | Some b => JSON_stringify b
               | None => "undefined"
               end;
               X_Nonce (req_headers req); TOKEN])
    /\ X_Nonce (req_headers req)
       = generateNonce TOKEN sha256_hex timezoneOffset formatUTC now
    /\ (timezoneOffset (getUTCDate timezoneOffset now) = timezoneOffset now ->
        X_Nonce (req_headers req)
        = sha256_hex (formatUTC now "yyMMddHHmm" ++ TOKEN)).
Proof.
  unfold request. run_io. eexists. split; [reflexivity |]. cbn.
  split; [reflexivity |]. split; [reflexivity |].
  split; [apply generateSignature_spec |]. split; [reflexivity |].
  apply generateNonce_spec.
Qed.
End HidiveSigning.

Section SigningExamples.
Import Async Hidive.

(** C7 fails in a zone with daylight saving time: in Stockholm at
    01:30 UTC on 2019-03-31, half an hour after the clocks went forward,
    [getUTCDate] goes back by the two hours of the new offset, and
    [format] comes forward by the one hour of the old offset that is in
    force there.  The nonce is made of 00:30 UTC, not of 01:30 UTC. *)
Lemma generateNonce_zone_change :
  generateNonce "token" example_digest stockholm_2019 example_formatUTC
    1553995800000
  = example_digest (example_formatUTC (1553995800000 - 3600000) "yyMMddHHmm"
                      ++ "token")
  /\ generateNonce "token" example_digest stockholm_2019 example_formatUTC
       1553995800000
     <> spec_nonce "token" example_digest example_formatUTC 1553995800000.
Proof. split; [reflexivity | discriminate]. Qed.

(** In a zone without daylight saving time the nonce is the hash of the
    UTC time. *)
Example generateNonce_fixed_zone :
  generateNonce "token" example_digest fixed_zone example_formatUTC
    1553995800000
  = spec_nonce "token" example_digest example_formatUTC 1553995800000.
Proof. reflexivity. Qed.
End SigningExamples.

(** ** Hidive episode ids and streams *)

Section HidiveIds.
Import Async Hidive.

Lemma list_ascii_of_string_app (a b : string) :
  list_ascii_of_string (a ++ b)
  = (list_ascii_of_string a ++ list_ascii_of_string b)%list.
Proof.
  induction a as [|x a IH]; [reflexivity |].
  change (x :: list_ascii_of_string (a ++ b)
          = x :: (list_ascii_of_string a ++ list_ascii_of_string b)%list).
  f_equal. exact IH.
Qed.

Lemma forallb_dot_iff (s : string) :
  forallb dot (list_ascii_of_string s) = true <-> ~ has_line_terminator s.
Proof.
  rewrite forallb_forall. unfold has_line_terminator, dot. split.
  - intros H (c & Hc & Ht). apply list_elem_of_In, H in Hc.
    rewrite Ht in Hc. discriminate.
  - intros H c Hc. apply list_elem_of_In in Hc.
    destruct (is_line_terminator c) eqn:E; [| reflexivity].
    exfalso. apply H. exists c. split; assumption.
Qed.

Lemma pretty_N_go_dot (x : N) (s : string) :
  forallb dot (list_ascii_of_string s) = true ->
  forallb dot (list_ascii_of_string (pretty_N_go x s)) = true.
Proof.
  revert s. induction (N.lt_wf_0 x) as [x _ IH]. intros s Hs.
  destruct (decide (x = 0%N)) as [-> | Hx];
    [rewrite pretty_N_go_0; exact Hs |].
  rewrite pretty_N_go_step by lia. apply IH.
  - apply N.div_lt; lia.
  - cbn [list_ascii_of_string forallb]. rewrite Hs, andb_true_r.
    unfold pretty_N_char. repeat case_match; reflexivity.
Qed.

Lemma pretty_Z_dot (z : Z) :
  forallb dot (list_ascii_of_string (pretty z)) = true.
Proof.
  assert (HN : forall p : positive,
             forallb dot (list_ascii_of_string (pretty (Npos p))) = true).
  { intros p. unfold pretty, pretty_N. rewrite decide_False by discriminate.
    apply pretty_N_go_dot. reflexivity. }
  destruct z as [|p|p]; [reflexivity | apply HN |].
  change (pretty (Z.neg p)) with ("-" ++ pretty (Npos p)).
  rewrite list_ascii_of_string_app. cbn. apply HN.
Qed.

Lemma match_attempt_split (a b : list ascii) (c : ascii) :
  match_attempt (length a) (a ++ c :: b)
  = if forallb dot a && is_hyphen c && forallb dot b
    then Some (a, b) else None.
Proof.
  unfold match_attempt. rewrite drop_app_length, take_app_length.
  reflexivity.
Qed.

Lemma match_attempt_ge (n : nat) (cs : list ascii) :
  (length cs <= n)%nat -> match_attempt n cs = None.
Proof. intros H. unfold match_attempt. now rewrite drop_ge. Qed.

Lemma match_attempt_at (n : nat) (cs : list ascii) (c : ascii) :
  cs !! n = Some c ->
  match_attempt n cs
  = if forallb dot (take n cs) && is_hyphen c && forallb dot (drop (S n) cs)
    then Some (take n cs, drop (S n) cs) else None.
Proof.
  intros H. rewrite <- (take_drop_middle cs n c H) at 1.
  assert (Hn : length (take n cs) = n).
  { apply length_take_le. apply lookup_lt_Some in H. lia. }
  rewrite <- Hn at 1. apply match_attempt_split.
Qed.

Lemma match_backtrack_Some (n : nat) (cs : list ascii) r :
  match_backtrack n cs = Some r ->
  exists m, (m <= n)%nat /\ match_attempt m cs = Some r
            /\ forall m', (m < m' <= n)%nat -> match_attempt m' cs = None.
Proof.
  induction n as [|n IH]; simpl.
  - destruct (match_attempt 0 cs) eqn:E; [| discriminate].
    intros [= <-]. exists 0%nat. split; [lia |]. split; [exact E |].
    intros m' Hm'. lia.
  - destruct (match_attempt (S n) cs) eqn:E.
    + intros [= <-]. exists (S n). split; [lia |]. split; [exact E |].
      intros m' Hm'. lia.
    + intros H. destruct (IH H) as (m & Hm & Ha & Hlater).
      exists m. split; [lia |]. split; [exact Ha |].
      intros m' Hm'. destruct (decide (m' = S n)) as [-> | Hne];
        [exact E | apply Hlater; lia].
Qed.

Lemma match_backtrack_found (n m : nat) (cs : list ascii) r :
  (m <= n)%nat -> match_attempt m cs = Some r ->
  (forall m', (m < m' <= n)%nat -> match_attempt m' cs = None) ->
  match_backtrack n cs = Some r.
Proof.
  induction n as [|n IH]; intros Hm Ha Hlater.
  - assert (m = 0%nat) as -> by lia. simpl. now rewrite Ha.
  - destruct (decide (m = S n)) as [-> | Hne].
    + simpl. now rewrite Ha.
    + simpl. rewrite (Hlater (S n)) by lia.
      apply IH; [lia | exact Ha |]. intros m' Hm'. apply Hlater. lia.
Qed.

Lemma match_backtrack_join (t k : list ascii) :
  forallb dot t = true ->
  (match_backtrack (length (t ++ ("-"%char :: k))) (t ++ ("-"%char :: k))
     = Some (t, k))
  <-> (("-"%char ∉ k) /\ forallb dot k = true).
Proof.
  intros Ht. set (cs := (t ++ ("-"%char :: k))%list). split.
  - intros H. apply match_backtrack_Some in H as (m & Hm & Ha & Hlater).
    assert (Hlt : (m < length cs)%nat).
    { destruct (decide (m < length cs)%nat) as [? | Hge]; [assumption |].
      rewrite match_attempt_ge in Ha by lia. discriminate. }
    destruct (lookup_lt_is_Some_2 cs m Hlt) as [c Hc].
    rewrite (match_attempt_at m cs c Hc) in Ha.
    destruct (_ && _) eqn:E; [| discriminate].
    injection Ha as Htake Hdrop.
    apply andb_true_iff in E as [E Hk]. rewrite Hdrop in Hk.
    assert (Hmt : m = length t).
    { rewrite <- Htake. symmetry. apply length_take_le. lia. }
    split; [| exact Hk]. intros Hin.
    apply list_elem_of_split in Hin as (k1 & k2 & ->).
    rewrite forallb_app in Hk. cbn [forallb] in Hk.
    apply andb_true_iff in Hk as [Hk1 Hk2].
    apply andb_true_iff in Hk2 as [_ Hk2].
    specialize (Hlater (length (t ++ ("-"%char :: k1)))).
    unfold cs in Hlater.
    replace (t ++ ("-"%char :: k1 ++ ("-"%char :: k2)))%list
      with ((t ++ ("-"%char :: k1)) ++ ("-"%char :: k2))%list in Hlater
      by (rewrite <- app_assoc; reflexivity).
    rewrite match_attempt_split in Hlater.
    rewrite forallb_app in Hlater. cbn [forallb] in Hlater.
    rewrite Ht, Hk1, Hk2 in Hlater. cbn in Hlater.
    assert (Hrange : (m < length (t ++ ("-"%char :: k1))
                      <= length ((t ++ ("-"%char :: k1))
                                   ++ ("-"%char :: k2)))%nat).
    { repeat first [rewrite length_app | progress cbn [length]]. lia. }
    specialize (Hlater Hrange). discriminate.
  - intros [Hin Hk].
    apply (match_backtrack_found _ (length t)).
    + unfold cs. rewrite length_app. lia.
    + unfold cs. rewrite match_attempt_split, Ht, Hk. reflexivity.
    + intros m' Hm'.
      destruct (decide (m' < length cs)%nat) as [Hlt | Hge];
        [| apply match_attempt_ge; lia].
      destruct (lookup_lt_is_Some_2 cs m' Hlt) as [c Hc].
      rewrite (match_attempt_at m' cs c Hc).
      assert (Hck : c ∈ k).
      { unfold cs in Hc. rewrite lookup_app_r in Hc by lia.
        destruct (m' - length t)%nat as [|j] eqn:Ej; [lia |].
        cbn in Hc. eapply list_elem_of_lookup_2. exact Hc. }
      assert (Hc' : is_hyphen c = false).
      { unfold is_hyphen. apply Ascii.eqb_neq. intros ->. contradiction. }
      rewrite Hc', andb_false_r. reflexivity.
Qed.

Lemma match_id_join (t k : string) :
  ~ has_line_terminator t ->
  (match_id (t ++ "-" ++ k) = Some (t, k))
  <-> (~ has_hyphen k /\ ~ has_line_terminator k).
Proof.
  intros Ht. apply forallb_dot_iff in Ht.
  rewrite <- (forallb_dot_iff k). unfold has_hyphen.
  rewrite <- (match_backtrack_join _ _ Ht). unfold match_id.
  rewrite !list_ascii_of_string_app.
  change (list_ascii_of_string "-") with ["-"%char].
  cbn [app].
  destruct (match_backtrack _ _) as [[g1 g2]|]; [| split; discriminate].
  split.
  - intros [= <- <-]. now rewrite !list_ascii_of_string_of_list_ascii.
  - intros [= -> ->]. now rewrite !string_of_list_ascii_of_string.
Qed.
End HidiveIds.

Section HidiveStreams.
Import Async Hidive.

Variables TOKEN APP_ID : string.
Variable sha256_hex : string -> string.
Variable JSON_stringify : Body -> string.
Variable timezoneOffset : Z -> Z.
Variable formatUTC : Z -> string -> string.

Local Abbreviation fetchStream' :=
  (fetchStream TOKEN APP_ID sha256_hex JSON_stringify timezoneOffset formatUTC).
Local Abbreviation fetchEpisodesById' :=
  (fetchEpisodesById TOKEN APP_ID sha256_hex JSON_stringify timezoneOffset
     formatUTC).

Lemma rejected_iff {D} (response : HidiveResponse D) :
  negb (ok response) || negb (Code response =? 0) = true
  <-> rejected response.
Proof.
  unfold rejected. rewrite orb_true_iff, !negb_true_iff, Z.eqb_neq.
  reflexivity.
Qed.

Lemma map_imap_ext {A B C} (h : B -> C) (g : A -> C) (f : nat -> A -> B)
  (l : list A) :
  (forall i a, h (f i a) = g a) -> map h (imap f l) = map g l.
Proof.
  revert f. induction l as [|a l IH]; intros f Hf; [reflexivity |].
  cbn. rewrite Hf. f_equal. apply IH. intros i b. apply Hf.
Qed.

Lemma fetchStream_sends (sess : Session) (now : Z) (id : string)
  (net : nat -> Reply (HidiveResponse _Stream)) :
  sent_bodies (snd (run (fetchStream' sess now id) net))
  = match match_id id with
    | Some (m1, m2) => [GetVideosBody m1 m2]
    | None => []
    end.
Proof.
  unfold fetchStream, request.
  destruct (match_id id) as [[m1 m2]|]; [| reflexivity].
  run_io. destruct (net 0%nat) as [response | message]; [| reflexivity].
  destruct (_ || _); [reflexivity |].
  destruct (get_opt _ _); reflexivity.
Qed.

Lemma fetchEpisodesById_ids (sess : Session) (now : Z) (anilistId id : Z)
  (net : nat -> Reply (HidiveResponse _Title)) :
  match net 0%nat with
  | Answered response =>
      match fst (run (fetchEpisodesById' sess now anilistId id) net) with
      | Return (Some episodes) =>
          map Types.id episodes
          = map (fun ep => pretty (Id (Data response)) ++ "-" ++ VideoKey ep)
                (Episodes (Data response))
      | Return None => rejected response
      | Throw _ => False
      end
  | Failed message =>
      fst (run (fetchEpisodesById' sess now anilistId id) net)
      = Throw (Error message)
  end.
Proof.
  unfold fetchEpisodesById, request. run_io.
  destruct (net 0%nat) as [response | message]; [| reflexivity].
  destruct (_ || _) eqn:E; cbn; [apply rejected_iff, E |].
  apply map_imap_ext. reflexivity.
Qed.

(** C9, as amended: [fetchEpisodesById] builds every episode id as the
    title id, a hyphen and the video key; [fetchStream] splits an id at
    its last hyphen and sends the two parts.  For every title id and
    video key, the parts are the original pair if and only if the video
    key contains no hyphen and no line terminator: the pattern does not
    match an id with a line terminator at all. *)
Theorem episodeId_roundtrip (title : _Title) (ep : _Episode) :
  (forall sess now anilistId id
          (net : nat -> Reply (HidiveResponse _Title)),
     match net 0%nat with
     | Answered response =>
         match fst (run (fetchEpisodesById' sess now anilistId id) net) with
         | Return (Some episodes) =>
             map Types.id episodes
             = map (fun ep =>
                      pretty (Id (Data response)) ++ "-" ++ VideoKey ep)
                   (Episodes (Data response))
         | Return None => rejected response
         | Throw _ => False
         end
     | Failed message =>
         fst (run (fetchEpisodesById' sess now anilistId id) net)
         = Throw (Error message)
     end)
  /\ ((match_id (episodeId title ep)
         = Some (pretty (Id title), VideoKey ep))
      <-> (~ has_hyphen (VideoKey ep)
           /\ ~ has_line_terminator (VideoKey ep)))
  /\ (forall sess now net,
        (sent_bodies
           (snd (run (fetchStream' sess now (episodeId title ep)) net))
         = [GetVideosBody (pretty (Id title)) (VideoKey ep)])
        <-> (~ has_hyphen (VideoKey ep)
             /\ ~ has_line_terminator (VideoKey ep))).
Proof.
  assert (Ht : ~ has_line_terminator (pretty (Id title))).
  { apply forallb_dot_iff, pretty_Z_dot. }
  split; [intros; apply fetchEpisodesById_ids |]. split.
  - apply (match_id_join _ _ Ht).
  - intros sess now net. rewrite fetchStream_sends.
    rewrite <- (match_id_join _ _ Ht). unfold episodeId.
    destruct (match_id _) as [[m1 m2]|]; split; congruence.
Qed.

Lemma get_find_key {V} (p : string -> bool) (o : Obj V) :
  match List.find p (keys o) with
  | Some k =>
      exists v, List.find (fun kv => p (fst kv)) o = Some (k, v)
                /\ get o k = Some v
  | None => List.find (fun kv => p (fst kv)) o = None
  end.
Proof.
  induction o as [|[k0 v0] o IH]; [reflexivity |].
  unfold keys, get in *. cbn [map List.find fst].
  destruct (p k0) eqn:E0.
  - exists v0. rewrite String.eqb_refl. split; reflexivity.
  - destruct (List.find p (map fst o)) as [k|] eqn:Ek; [| exact IH].
    destruct IH as (v & Hfind & Hget). exists v. split; [exact Hfind |].
    assert (Hne : String.eqb k0 k = false).
    { apply String.eqb_neq. intros ->.
      apply find_some in Ek as [_ Ek]. congruence. }
    rewrite Hne. exact Hget.
Qed.

Lemma get_japanese_key (videoUrls : Obj VideoUrl) :
  get_opt videoUrls
    (List.find (fun str => includes "Japanese" str) (keys videoUrls))
  = match japanese_entry videoUrls with
    | Some entry => Some entry
    | None => get videoUrls "undefined"
    end.
Proof.
  unfold get_opt, japanese_entry.
  pose proof (get_find_key (fun str => includes "Japanese" str) videoUrls)
    as H.
  destruct (List.find _ (keys videoUrls)) as [k|];
    cbn [default from_option id].
  - destruct H as (v & -> & ->). reflexivity.
  - rewrite H. reflexivity.
Qed.

(** C10, as amended: when the id parses and the request is answered,
    [fetchStream] returns null exactly for a transport failure or a
    response that the provider rejected.  On a successful response it
    returns the first HLS url of the first entry of [VideoUrls] whose key
    contains ['Japanese'].  The lookup is unguarded: when no key contains
    ['Japanese'] the key is [undefined], and the function throws a
    TypeError instead of returning null, unless the object has a property
    named ["undefined"], whose first HLS url it then returns.  A request
    that is not answered throws its rejection. *)
Theorem fetchStream_japanese (sess : Session) (now : Z) (id m1 m2 : string)
  (net : nat -> Reply (HidiveResponse _Stream)) :
  match_id id = Some (m1, m2) ->
  let outcome := fst (run (fetchStream' sess now id) net) in
  match net 0%nat with
  | Answered response =>
      let videoUrls := VideoUrls (Data response) in
      (outcome = Return None <-> rejected response)
      /\ (~ rejected response ->
          forall entry,
            japanese_entry videoUrls = Some entry ->
            exists stream,
              outcome = Return (Some stream)
              /\ url stream = head (hls entry))
      /\ (~ rejected response ->
          japanese_entry videoUrls = None ->
          match get videoUrls "undefined" with
          | None => outcome = Throw TypeError
          | Some entry =>
              exists stream,
                outcome = Return (Some stream)
                /\ url stream = head (hls entry)
          end)
  | Failed message => outcome = Throw (Error message)
  end.
Proof.
  intros Hid outcome.
  subst outcome. unfold fetchStream, request. rewrite Hid.
  run_io. destruct (net 0%nat) as [response | message]; [| reflexivity].
  set (videoUrls := VideoUrls (Data response)). cbv zeta.
  pose proof (rejected_iff response) as Hrej.
  destruct (_ || _) eqn:E.
  - split; [split; [intros _; apply Hrej; reflexivity | reflexivity] |].
    split; intros Hn; exfalso; apply Hn, Hrej; reflexivity.
  - assert (Hok : ~ rejected response).
    { intros H. apply Hrej in H. discriminate. }
    rewrite get_japanese_key. fold videoUrls. split; [| split].
    + split; [| intros H; contradiction].
      destruct (japanese_entry videoUrls);
        [| destruct (get videoUrls "undefined")]; discriminate.
    + intros _ entry ->. eexists. split; reflexivity.
    + intros _ ->. destruct (get videoUrls "undefined");
        [eexists; split |]; reflexivity.
Qed.
End HidiveStreams.

Section HidiveExamples.
Import Async Hidive.

Lemma no_hyphen_line_feed : ~ has_hyphen (VideoKey episode_line_feed).
Proof.
  unfold has_hyphen. cbn. intros H.
  repeat (apply elem_of_cons in H as [H | H]; [discriminate |]).
  apply elem_of_nil in H. exact H.
Qed.

(** C9, as stated, fails on a video key without hyphen that holds a line
    feed: the pattern does not match the id, the parse recovers nothing
    and [fetchStream] throws before it sends a request. *)
Lemma episodeId_roundtrip_line_feed :
  ~ ((match_id (episodeId title_1234 episode_line_feed)
        = Some (pretty (Id title_1234), VideoKey episode_line_feed))
     <-> ~ has_hyphen (VideoKey episode_line_feed)).
Proof.
  intros [_ H]. specialize (H no_hyphen_line_feed). vm_compute in H.
  discriminate.
Qed.

Lemma fetchStream_japanese_witness :
  exists stream,
    fst (run (example_fetchStream session_0 0 "1234-s01e001")
             (response_of subbed_and_dubbed))
      = Return (Some stream)
    /\ url stream = Some "https://cdn.hidive.com/sub.m3u8".
Proof.
  refine (proj1 (proj2
    (fetchStream_japanese "token" "client" example_digest example_stringify
       fixed_zone example_formatUTC session_0 0 "1234-s01e001" "1234"
       "s01e001" (response_of subbed_and_dubbed) eq_refl)) _ _ eq_refl).
  intros [H | H]; [discriminate | apply H; reflexivity].
Defined.

(** C10, as stated, fails on a successful response whose only video url
    is a property named ["undefined"]: no key contains ['Japanese'], and
    the function does not fail but returns the url of that property. *)
Lemma fetchStream_undefined_key :
  japanese_entry [("undefined", {| hls := ["https://cdn.hidive.com/x.m3u8"] |})]
    = None
  /\ exists stream,
       fst (run (example_fetchStream session_0 0 "1234-s01e001")
                (response_of
                   [("undefined",
                     {| hls := ["https://cdn.hidive.com/x.m3u8"] |})]))
         = Return (Some stream)
       /\ url stream = Some "https://cdn.hidive.com/x.m3u8".
Proof. split; [reflexivity |]. eexists. split; reflexivity. Qed.
End HidiveExamples.

(** ** List mutations *)

Section Mutations.
Import Async ListMutations.
Import Types(ProviderCrunchyroll, ProviderHidive).

Lemma filter_out_filter (p : ListEntry -> bool) (l : list ListEntry) :
  List.filter p (List.filter (fun e => negb (p e)) l) = [].
Proof.
  induction l as [|e l IH]; [reflexivity |]. cbn.
  destruct (p e) eqn:E; cbn; [exact IH |]. rewrite E. exact IH.
Qed.

Lemma lists_update (c : Cache) (anilistId : Z) (d : ListEntry)
  (s : MediaListStatus) :
  lists (addToCacheList (removeFromCacheList c anilistId) d) s
  = if decide (s = status d)
    then (List.filter (fun e => negb (mediaId e =? anilistId)) (lists c s)
            ++ [d])%list
    else List.filter (fun e => negb (mediaId e =? anilistId)) (lists c s).
Proof.
  unfold addToCacheList, removeFromCacheList, set_lists. cbn.
  destruct (decide (s = status d)) as [-> | Hne].
  - apply fn_lookup_insert.
  - rewrite fn_lookup_insert_ne by congruence. reflexivity.
Qed.

Lemma occurrences_update (c : Cache) (d : ListEntry) (s : MediaListStatus) :
  occurrences (addToCacheList (removeFromCacheList c (mediaId d)) d) s
    (mediaId d)
  = if decide (s = status d) then 1%nat else 0%nat.
Proof.
  unfold occurrences. rewrite lists_update.
  destruct (decide (s = status d)).
  - rewrite List.filter_app, filter_out_filter. cbn.
    rewrite Z.eqb_refl. reflexivity.
  - rewrite filter_out_filter. reflexivity.
Qed.

Lemma appears_occurrences (c : Cache) (s : MediaListStatus) (anilistId : Z) :
  appears c s anilistId <-> (0 < occurrences c s anilistId)%nat.
Proof.
  unfold appears, occurrences. generalize (lists c s). intros l.
  induction l as [|e l IH]; cbn.
  - split; [intros (e & [] & _) | lia].
  - destruct (mediaId e =? anilistId) eqn:E; cbn.
    + split; [lia |]. intros _. exists e. split; [now left | lia].
    + rewrite <- IH. split.
      * intros (e' & [<- | Hin] & He'); [lia | exists e'; auto].
      * intros (e' & Hin & He'). exists e'. auto.
Qed.

Lemma updateStatus_success (server : Server) (c : Client)
  (anilistId : Z) (B : MediaListStatus) (d : ListEntry) :
  server UPDATE_STATUS (UpdateStatusVariables anilistId B)
    = Resolved (Some d) ->
  fst (updateStatus server anilistId B c)
    = Return (ExecutionResult (Some d))
  /\ cache (snd (updateStatus server anilistId B c))
     = addToCacheList
         (removeFromCacheList (writeResult (cache c) (Some d)) anilistId) d.
Proof.
  intros Hserver. unfold updateStatus, mutate.
  cbn [mutation variables]. rewrite Hserver. split; reflexivity.
Qed.

(** C2: after a successful [UpdateStatus] mutation that takes the entry
    of [anilistId] to the status [B], whatever bucket held it before,
    the entry for that mediaId is in exactly one bucket of the list
    cache, the bucket [B], where it occurs once: it is gone from every
    other bucket, the old one included. *)
Theorem updateStatus_one_bucket (server : Server) (c : Client)
  (anilistId : Z) (B : MediaListStatus) (d : ListEntry) :
  server UPDATE_STATUS (UpdateStatusVariables anilistId B)
    = Resolved (Some d) ->
  mediaId d = anilistId ->
  status d = B ->
  let c' := snd (updateStatus server anilistId B c) in
  fst (updateStatus server anilistId B c)
    = Return (ExecutionResult (Some d))
  /\ (forall s,
        occurrences (cache c') s anilistId
        = if decide (s = B) then 1%nat else 0%nat)
  /\ (forall s, appears (cache c') s anilistId <-> s = B)
  /\ In d (lists (cache c') B).
Proof.
  intros Hserver <- <- c'. subst c'.
  destruct (updateStatus_success server c _ _ d Hserver) as [-> ->].
  split; [reflexivity |]. split; [| split].
  - intros s. apply occurrences_update.
  - intros s. rewrite appears_occurrences, occurrences_update.
    destruct (decide (s = status d)); split; intros; (lia || congruence).
  - rewrite lists_update, decide_True by reflexivity.
    apply in_or_app. right. now left.
Qed.

Lemma updateStatus_one_bucket_witness :
  occurrences (cache (snd (updateStatus planning_to_current 21 Current
                             (new_client cache_21)))) Planning 21 = 0%nat
  /\ occurrences (cache (snd (updateStatus planning_to_current 21 Current
                                (new_client cache_21)))) Current 21 = 1%nat.
Proof.
  pose proof (updateStatus_one_bucket planning_to_current
                (new_client cache_21) 21 Current _ eq_refl eq_refl eq_refl)
    as (_ & Hocc & _).
  split; [exact (Hocc Planning) | exact (Hocc Current)].
Defined.

(** C3: for every progress update whose progress value is negative,
    [setProgress] returns before it builds the mutation: nothing is
    dispatched to the network, the cache is left as it was, and the error
    is reported through [captureException]. *)
Theorem setProgress_negative (server : Server)
  (options : EpisodeMutationObject) (c : Client) :
  episodeNumber options < 0 ->
  let c' := snd (setProgress server options c) in
  fst (setProgress server options c) = Return EventId
  /\ dispatched c' = dispatched c
  /\ captured c'
     = (captured c ++ [Error "Tried to set progress to -1"])%list
  /\ cache c' = cache c
  /\ inflight c' = inflight c.
Proof.
  intros Hneg c'. subst c'. unfold setProgress.
  apply Z.ltb_lt in Hneg. rewrite Hneg. repeat split.
Qed.

Lemma setProgress_negative_witness :
  dispatched
    (snd (setProgress planning_to_current
            {| provider := ProviderCrunchyroll; animeId := 21;
               episodeNumber := -1 |}
            (new_client cache_21)))
  = [].
Proof.
  exact (proj1 (proj2 (setProgress_negative planning_to_current
           {| provider := ProviderCrunchyroll; animeId := 21;
              episodeNumber := -1 |}
           (new_client cache_21) eq_refl))).
Defined.

Lemma mutate_dispatched (server : Server) (opts : MutationOptions)
  (c : Client) :
  dispatched (snd (mutate server opts c)) = (dispatched c ++ [opts])%list.
Proof.
  unfold mutate. destruct (server _ _); [| reflexivity].
  destruct (apply_result _ _ _) as [[] ?]; reflexivity.
Qed.






(** [addToList], [deleteFromList] and [editListEntry] hand no optimistic
    response to [mutate]. *)
Lemma optimistic_projection_absent (server : Server) (m : ListMutation)
  (c : Client) :
  match m with
  | AddToList _ | DeleteFromList _ | EditListEntry _ _ =>
      exists opts,
        dispatched (snd (call server m c)) = (dispatched c ++ [opts])%list
        /\ optimisticResponse opts = None
  | _ => True
  end.
Proof.
  destruct m; try exact I; cbn;
    unfold addToList, deleteFromList, editListEntry;
    rewrite mutate_dispatched; eexists; split; reflexivity.
Qed.




End Mutations.

(** * Further properties *)

(** ** Episode numbers *)

Section EpisodeNumbers.
Import JS Crunchyroll.
Import Types(Episode).

Lemma map_lookup {A B} (f : A -> B) (l : list A) (i : nat) :
  map f l !! i = f <$> (l !! i).
Proof. change (map f l) with (f <$> l). apply list_lookup_fmap. Qed.

Lemma append_empty_r (s : string) : s ++ "" = s.
Proof.
  induction s as [|c s IH]; [reflexivity |].
  change (String c (s ++ "") = String c s). f_equal. exact IH.
Qed.

Lemma filter_chars_app (p : ascii -> bool) (a b : string) :
  filter_chars p (a ++ b) = filter_chars p a ++ filter_chars p b.
Proof.
  induction a as [|c a IH]; [reflexivity |].
  change (filter_chars p (String c (a ++ b))
          = filter_chars p (String c a) ++ filter_chars p b).
  cbn [filter_chars]. destruct (p c); [| exact IH].
  change (String c (filter_chars p (a ++ b))
          = String c (filter_chars p a ++ filter_chars p b)).
  f_equal. exact IH.
Qed.

Lemma filter_chars_none (p : ascii -> bool) (s : string) :
  all_chars (fun c => negb (p c)) s = true -> filter_chars p s = "".
Proof.
  induction s as [|c s IH]; [reflexivity |]. cbn.
  destruct (p c); cbn; [discriminate | exact IH].
Qed.

Lemma filter_chars_all (p q : ascii -> bool) (s : string) :
  (forall c, p c = true -> q c = true) ->
  all_chars p s = true -> filter_chars q s = s.
Proof.
  intros Hpq. induction s as [|c s IH]; [reflexivity |]. cbn.
  destruct (p c) eqn:E; cbn; [| discriminate].
  intros H. rewrite (Hpq c E), (IH H). reflexivity.
Qed.

Lemma pretty_N_go_chars (P : ascii -> bool) (x : N) (s : string) :
  (forall d, (d < 10)%N -> P (pretty_N_char d) = true) ->
  all_chars P s = true -> all_chars P (pretty_N_go x s) = true.
Proof.
  intros HP. revert s. induction (N.lt_wf_0 x) as [x _ IH]. intros s Hs.
  destruct (decide (x = 0%N)) as [-> | Hx];
    [rewrite pretty_N_go_0; exact Hs |].
  rewrite pretty_N_go_step by lia. apply IH.
  - apply N.div_lt; lia.
  - cbn [all_chars]. rewrite Hs, andb_true_r. apply HP.
    apply N.mod_lt. discriminate.
Qed.

Lemma pretty_N_char_digit (d : N) :
  (d < 10)%N -> is_digit (pretty_N_char d) = true.
Proof. intros _. unfold pretty_N_char. repeat case_match; reflexivity. Qed.

Lemma pretty_N_digits (n : N) : all_chars is_digit (pretty n) = true.
Proof.
  unfold pretty, pretty_N. case_decide; [reflexivity |].
  apply pretty_N_go_chars; [apply pretty_N_char_digit | reflexivity].
Qed.

Lemma digits_value_acc (acc : N) (s : string) :
  digits_value acc s
  = (acc * 10 ^ N.of_nat (String.length s) + digits_value 0 s)%N.
Proof.
  revert acc. induction s as [|c s IH]; intros acc.
  - cbn. lia.
  - cbn [digits_value String.length]. rewrite (IH (10 * acc + _)%N).
    rewrite (IH (10 * 0 + _)%N). rewrite Nat2N.inj_succ, N.pow_succ_r'. lia.
Qed.

Lemma digit_value_pretty_N_char (d : N) :
  (d < 10)%N -> digit_value (pretty_N_char d) = d.
Proof.
  intros Hd.
  assert (d = 0 \/ d = 1 \/ d = 2 \/ d = 3 \/ d = 4 \/ d = 5 \/ d = 6
          \/ d = 7 \/ d = 8 \/ d = 9)%N as H by lia.
  repeat (destruct H as [-> | H]; [reflexivity |]). subst d. reflexivity.
Qed.

Lemma digits_value_pretty_N_go (x : N) (s : string) :
  digits_value 0 (pretty_N_go x s)
  = (x * 10 ^ N.of_nat (String.length s) + digits_value 0 s)%N.
Proof.
  revert s. induction (N.lt_wf_0 x) as [x _ IH]. intros s.
  destruct (decide (x = 0%N)) as [-> | Hx];
    [rewrite pretty_N_go_0; lia |].
  rewrite pretty_N_go_step by lia. rewrite IH by (apply N.div_lt; lia).
  cbn [digits_value String.length].
  rewrite (digits_value_acc (10 * 0 + _)%N).
  rewrite digit_value_pretty_N_char by (apply N.mod_lt; discriminate).
  rewrite Nat2N.inj_succ, N.pow_succ_r'.
  rewrite (N.div_mod x 10) at 3 by discriminate. lia.
Qed.

Lemma digits_value_pretty (n : N) : digits_value 0 (pretty n) = n.
Proof.
  unfold pretty, pretty_N. case_decide as Hn; [subst; reflexivity |].
  rewrite digits_value_pretty_N_go. cbn. lia.
Qed.

Lemma split_dot_digits (s : string) :
  all_chars is_digit s = true -> split_dot s = (s, None).
Proof.
  induction s as [|c s IH]; [reflexivity |]. cbn [all_chars split_dot].
  intros [Hc Hs]%andb_true_iff. rewrite (IH Hs).
  assert (is_dot c = false) as ->; [| reflexivity].
  unfold is_dot. apply Ascii.eqb_neq. intros ->. discriminate.
Qed.

Lemma Number_digits (s : string) :
  all_chars is_digit s = true ->
  Number s = round64 (inject_Z (Z.of_N (digits_value 0 s))).
Proof.
  intros H. unfold Number. rewrite (split_dot_digits s H), H. reflexivity.
Qed.

(** X1: whatever stands around a decimal numeral, as long as it holds no
    digit and no dot, is ignored: the result is the double nearest to the
    number of the numeral, which is that number itself when it is below
    2^53.  ["Episode 12"], ["#12 (Dub)"] and ["-12"] all read as 12. *)
Theorem getEpisodeNumber_decimal (n : N) (before after : string) :
  all_chars (fun c => negb (is_digit c || is_dot c)) before = true ->
  all_chars (fun c => negb (is_digit c || is_dot c)) after = true ->
  getEpisodeNumber (before ++ pretty n ++ after)
    = round64 (inject_Z (Z.of_N n))
  /\ ((n < 2 ^ 53)%N ->
      getEpisodeNumber (before ++ pretty n ++ after) = of_Z (Z.of_N n)).
Proof.
  intros Hb Ha.
  assert (H : getEpisodeNumber (before ++ pretty n ++ after)
              = round64 (inject_Z (Z.of_N n))).
  { unfold getEpisodeNumber, onlyNumbers.
    rewrite !filter_chars_app, (filter_chars_none _ _ Hb),
      (filter_chars_none _ _ Ha), append_empty_r.
    rewrite (filter_chars_all is_digit) by
      (first [apply pretty_N_digits | intros c ->; reflexivity]).
    change ("" ++ pretty n) with (pretty n).
    rewrite Number_digits by apply pretty_N_digits.
    rewrite digits_value_pretty. reflexivity. }
  split; [exact H |]. intros Hn. rewrite H. apply round64_of_Z.
  unfold safe. split; [lia |].
  change (2 ^ 53) with (Z.of_N (2 ^ 53)%N). lia.
Qed.

Lemma getEpisodeNumber_decimal_witness :
  getEpisodeNumber ("Episode " ++ pretty 12%N ++ " (Dub)") = of_Z 12.
Proof.
  exact (proj2 (getEpisodeNumber_decimal 12 "Episode " " (Dub)"
                  eq_refl eq_refl) eq_refl).
Defined.
End EpisodeNumbers.

Section WholeNumbers.
Import JS Crunchyroll.
Import Types(Episode).

Lemma real_episode_number (ep : _Media) :
  isRealEpisode ep = true ->
  exists n : N, getEpisodeNumber (episode_number ep) = of_Z (Z.of_N n).
Proof.
  unfold isRealEpisode, anyPass. cbn [existsb].
  rewrite negb_true_iff, orb_false_iff. intros [Hhalf _].
  unfold episodeNumberIsHalf in Hhalf.
  destruct (getEpisodeNumber (episode_number ep)) as [| | |q] eqn:E;
    try discriminate.
  apply rem1_zero_iff in Hhalf as [z Hz].
  pose proof (getEpisodeNumber_reduced (episode_number ep)) as Hred.
  rewrite E in Hred. cbn in Hred.
  assert (Hq : q = inject_Z z).
  { rewrite <- Hred, <- Qred_inject_Z. apply Qred_complete. exact Hz. }
  assert (Hz0 : 0 <= z).
  { unfold getEpisodeNumber in E. apply Number_nonneg in E.
    rewrite Hz in E. change 0%Q with (inject_Z 0) in E.
    rewrite <- Zle_Qle in E. exact E. }
  exists (Z.to_N z). rewrite Z2N.id by exact Hz0. subst q. reflexivity.
Qed.

(** X2: the number of an entry that [isRealEpisode] keeps is a natural
    number: it is not NaN, has no fractional part and is not negative. *)
Theorem isRealEpisode_natural (ep : _Media) :
  isRealEpisode ep = true ->
  exists n : N, getEpisodeNumber (episode_number ep) = of_Z (Z.of_N n).
Proof. exact (real_episode_number ep). Qed.

Lemma isRealEpisode_natural_witness :
  exists n : N, getEpisodeNumber (episode_number (media "Episode 7"))
                = of_Z (Z.of_N n).
Proof. exact (isRealEpisode_natural (media "Episode 7") eq_refl). Defined.
End WholeNumbers.

Section Pipeline.
Import JS Crunchyroll.
Import Types(Episode).

Lemma raw_numbers_imap (id : Z) (l : list _Media) :
  raw_numbers (imap (fun i m => mediaToEpisode id m i) l)
  = map (fun m => getEpisodeNumber (episode_number m)) l.
Proof. unfold raw_numbers. apply map_imap_ext. reflexivity. Qed.

Lemma Forall_filter_real (data : list _Media) :
  Forall (fun m => exists n : N,
            getEpisodeNumber (episode_number m) = of_Z (Z.of_N n))
         (List.filter isRealEpisode data).
Proof.
  apply List.Forall_forall. intros m [_ Hm]%filter_In.
  apply real_episode_number, Hm.
Qed.

Lemma Forall_exists_map {A B C} (f : A -> C) (g : B -> C) (l : list A) :
  Forall (fun a => exists b, f a = g b) l ->
  exists bs, map f l = map g bs.
Proof.
  induction 1 as [|a l [b Hb] _ [bs Hbs]]; [exists []; reflexivity |].
  exists (b :: bs). cbn. rewrite Hb, Hbs. reflexivity.
Qed.

(** X3: the entries that [fetchEpisodesOfCollection] retains have natural
    numbers n0, n1, ...  When these are below 2^53, the numbers it gives
    out are n_i - max(0, n0 - 1): whole numbers that keep their distances,
    the first of them 1 when n0 is at least 1, and 0 when n0 is 0. *)
Theorem normalizeEpisodes_whole (id : Z) (data : list _Media) :
  exists ns : list N,
    map (fun m => getEpisodeNumber (episode_number m))
        (List.filter isRealEpisode data)
    = map (fun n => of_Z (Z.of_N n)) ns
    /\ (Forall (fun n => (n < 2 ^ 53)%N) ns ->
        numbers (normalizeEpisodes id data)
        = map (fun n =>
                 of_Z (Z.of_N n
                       - Z.max 0 (Z.of_N (default 0%N (head ns)) - 1)))
              ns
        /\ head (numbers (normalizeEpisodes id data))
           = (fun n0 => of_Z (Z.min 1 (Z.of_N n0))) <$> head ns).
Proof.
  destruct (Forall_exists_map
              (fun m => getEpisodeNumber (episode_number m))
              (fun n => of_Z (Z.of_N n)) _ (Forall_filter_real data))
    as [ns Hns].
  exists ns. split; [exact Hns |]. intros Hall.
  unfold normalizeEpisodes.
  destruct ns as [|n0 ns].
  { destruct (List.filter isRealEpisode data); [| discriminate].
    split; reflexivity. }
  destruct (numbers_of_Z
              (imap (fun i m => mediaToEpisode id m i)
                    (List.filter isRealEpisode data))
              (Z.of_N n0) (map Z.of_N ns)) as [_ Hnum].
  - rewrite raw_numbers_imap, Hns. cbn [map]. rewrite map_map. reflexivity.
  - change (Z.of_N n0 :: map Z.of_N ns) with (map Z.of_N (n0 :: ns)).
    apply List.Forall_forall. intros z [n [<- Hn]]%in_map_iff.
    rewrite List.Forall_forall in Hall. specialize (Hall n Hn).
    split; [lia |]. change (2 ^ 53) with (Z.of_N (2 ^ 53)%N). lia.
  - rewrite Hnum.
    cbn [map head from_option Datatypes.id fmap option_fmap option_map].
    rewrite map_map. split; [reflexivity |]. do 2 f_equal. lia.
Qed.

Lemma imap_seq_ext {A B} (h : B -> nat) (f : nat -> A -> B) (l : list A)
  (k : nat) :
  (forall i a, h (f i a) = (k + i)%nat) ->
  map h (imap f l) = seq k (length l).
Proof.
  revert f k. induction l as [|a l IH]; intros f k Hf; [reflexivity |].
  cbn. rewrite Hf, Nat.add_0_r. f_equal. apply IH.
  intros i b. cbn. rewrite Hf. lia.
Qed.

(** X4: [fetchEpisodesOfCollection] numbers the positions after it has
    dropped the specials: the retained episodes carry the indices 0, 1, 2,
    ... without gap, in the order of the payload, each with the media id
    of its entry and the anime id it was asked for. *)
Theorem normalizeEpisodes_indices (id : Z) (data : list _Media) :
  map Types.index (normalizeEpisodes id data)
    = seq 0 (length (List.filter isRealEpisode data))
  /\ map Types.id (normalizeEpisodes id data)
     = map media_id (List.filter isRealEpisode data)
  /\ Forall (fun ep => Types.animeId ep = id
                       /\ Types.provider ep = Types.ProviderCrunchyroll)
            (normalizeEpisodes id data).
Proof.
  unfold normalizeEpisodes. rewrite fixEpisodeNumbers_map.
  generalize (List.filter isRealEpisode data). intros l.
  generalize (shift (imap (fun i m => mediaToEpisode id m i) l)). intros s.
  rewrite !map_map. cbn [set_episodeNumber Types.index Types.id].
  split; [| split].
  - apply (imap_seq_ext _ _ l 0). reflexivity.
  - apply map_imap_ext. reflexivity.
  - apply List.Forall_forall. intros ep [e [<- He]]%in_map_iff.
    cbn. apply list_elem_of_In, elem_of_lookup_imap in He as (i & m & -> & _).
    split; reflexivity.
Qed.

(** X5: when the first raw number is a whole number from 1 to below
    2^53, every episode with a whole number below 2^53 is numbered 1 plus
    its distance from the first: gaps and repeats of the raw numbering are
    kept, and an episode before the first goes to 0 or below. *)
Theorem fixEpisodeNumbers_offsets (ep0 : Episode string)
  (rest : list (Episode string)) (z0 : Z) :
  getEpisodeNumber (Types.episodeNumber ep0) = of_Z z0 ->
  1 <= z0 < 2 ^ 53 ->
  forall (i : nat) (ep : Episode string) (z : Z),
    (ep0 :: rest) !! i = Some ep ->
    getEpisodeNumber (Types.episodeNumber ep) = of_Z z ->
    0 <= z < 2 ^ 53 ->
    Types.episodeNumber <$> (fixEpisodeNumbers (ep0 :: rest) !! i)
    = Some (of_Z (z - z0 + 1)).
Proof.
  intros H0 Hz0 i ep z Hi Hz Hrange.
  rewrite fixEpisodeNumbers_map, map_lookup, Hi.
  cbn [fmap option_fmap option_map set_episodeNumber Types.episodeNumber].
  rewrite (shift_of_Z ep0 rest z0 H0) by lia. rewrite Hz.
  rewrite sub_shift_of_Z by lia. do 2 f_equal. lia.
Qed.

Lemma fixEpisodeNumbers_offsets_witness :
  Types.episodeNumber
    <$> (fixEpisodeNumbers
           (mediaToEpisode 20 (media "13") 0
              :: [mediaToEpisode 20 (media "14") 1;
                  mediaToEpisode 20 (media "16") 2]) !! 2%nat)
  = Some (of_Z 4).
Proof.
  refine (fixEpisodeNumbers_offsets (mediaToEpisode 20 (media "13") 0)
            [mediaToEpisode 20 (media "14") 1;
             mediaToEpisode 20 (media "16") 2]
            13 eq_refl _ 2%nat (mediaToEpisode 20 (media "16") 2) 16
            eq_refl eq_refl _); lia.
Defined.

(** X6: a first episode whose digits and dots do not form a number
    poisons the whole list: every episode comes out numbered NaN. *)
Theorem fixEpisodeNumbers_NaN (ep0 : Episode string)
  (rest : list (Episode string)) :
  getEpisodeNumber (Types.episodeNumber ep0) = NaN ->
  Forall (fun n => n = NaN) (numbers (fixEpisodeNumbers (ep0 :: rest))).
Proof.
  intros H0. rewrite numbers_fixEpisodeNumbers.
  assert (shift (ep0 :: rest) = NaN) as ->.
  { unfold shift, raw_numbers. cbn [map]. rewrite H0. reflexivity. }
  apply List.Forall_forall. intros n [raw [<- _]]%in_map_iff.
  destruct raw; reflexivity.
Qed.

Lemma fixEpisodeNumbers_NaN_witness :
  Forall (fun n => n = NaN)
         (numbers (fixEpisodeNumbers
                     (mediaToEpisode 20 (media "1.2.3") 0
                        :: [mediaToEpisode 20 (media "2") 1]))).
Proof.
  exact (fixEpisodeNumbers_NaN (mediaToEpisode 20 (media "1.2.3") 0)
           [mediaToEpisode 20 (media "2") 1] eq_refl).
Defined.
End Pipeline.

(** ** Hidive names *)

Section Slugs.
Import JS Hidive.

Lemma all_chars_impl (p q : ascii -> bool) (s : string) :
  (forall c, p c = true -> q c = true) ->
  all_chars p s = true -> all_chars q s = true.
Proof.
  intros Hpq. induction s as [|c s IH]; [reflexivity |]. cbn.
  intros [Hc Hs]%andb_true_iff. rewrite (Hpq c Hc), (IH Hs). reflexivity.
Qed.

Lemma all_chars_map_chars (p : ascii -> bool) (f : ascii -> ascii)
  (s : string) :
  all_chars (fun c => p (f c)) s = all_chars p (map_chars f s).
Proof.
  induction s as [|c s IH]; [reflexivity |]. cbn. now rewrite IH.
Qed.

Lemma is_hyphen_to_lower (c : ascii) : is_hyphen (to_lower c) = is_hyphen c.
Proof. destruct c as [[] [] [] [] [] [] [] []]; reflexivity. Qed.

Lemma slug_char_to_lower (c : ascii) :
  is_alnum c || is_hyphen c = true -> slug_char (to_lower c) = true.
Proof. destruct c as [[] [] [] [] [] [] [] []]; vm_compute; congruence. Qed.

Lemma to_lower_slug_char (c : ascii) : slug_char c = true -> to_lower c = c.
Proof.
  destruct c as [[] [] [] [] [] [] [] []]; vm_compute; congruence.
Qed.

Lemma alnum_or_hyphen_slug_char (c : ascii) :
  slug_char c = true -> (if is_alnum c then c else "-"%char) = c.
Proof.
  destruct c as [[] [] [] [] [] [] [] []]; vm_compute; congruence.
Qed.

Lemma alnum_or_hyphen (c : ascii) :
  is_alnum (if is_alnum c then c else "-"%char)
  || is_hyphen (if is_alnum c then c else "-"%char) = true.
Proof. destruct (is_alnum c) eqn:E; [rewrite E |]; reflexivity. Qed.

Lemma squeeze_cons (c c' : ascii) (s : string) :
  squeeze_hyphens (String c (String c' s))
  = if is_hyphen c && is_hyphen c' then squeeze_hyphens (String c' s)
    else String c (squeeze_hyphens (String c' s)).
Proof. reflexivity. Qed.

Lemma starts_squeeze (s : string) :
  starts_with_hyphen (squeeze_hyphens s) = starts_with_hyphen s.
Proof.
  induction s as [|c s IH]; [reflexivity |].
  destruct s as [|c' s']; [reflexivity |].
  rewrite squeeze_cons.
  destruct (is_hyphen c && is_hyphen c') eqn:E; [| reflexivity].
  rewrite IH. apply andb_true_iff in E as [Hc Hc']. cbn. congruence.
Qed.

Lemma all_chars_squeeze (p : ascii -> bool) (s : string) :
  all_chars p s = true -> all_chars p (squeeze_hyphens s) = true.
Proof.
  induction s as [|c s IH]; [reflexivity |].
  destruct s as [|c' s']; [trivial |].
  intros H. cbn [all_chars] in H. apply andb_true_iff in H as [Hc Hs].
  rewrite squeeze_cons. destruct (is_hyphen c && is_hyphen c').
  - apply IH, Hs.
  - cbn [all_chars]. rewrite Hc. apply IH, Hs.
Qed.

Lemma adjacent_cons (c : ascii) (s : string) :
  adjacent_hyphens (String c s)
  = (is_hyphen c && starts_with_hyphen s) || adjacent_hyphens s.
Proof. destruct s; cbn; [now rewrite andb_false_r | reflexivity]. Qed.

Lemma adjacent_squeeze (s : string) :
  adjacent_hyphens (squeeze_hyphens s) = false.
Proof.
  induction s as [|c s IH]; [reflexivity |].
  destruct s as [|c' s']; [reflexivity |].
  rewrite squeeze_cons.
  destruct (is_hyphen c && is_hyphen c') eqn:E; [exact IH |].
  rewrite adjacent_cons, IH, starts_squeeze. cbn. now rewrite E.
Qed.

Lemma squeeze_id (s : string) :
  adjacent_hyphens s = false -> squeeze_hyphens s = s.
Proof.
  induction s as [|c s IH]; [reflexivity |].
  destruct s as [|c' s']; [reflexivity |].
  intros H. cbn [adjacent_hyphens] in H.
  apply orb_false_iff in H as [E H]. rewrite squeeze_cons.
  rewrite E, (IH H). reflexivity.
Qed.

Lemma drop_leading_spec (p : ascii -> bool) (s : string) :
  all_chars p s = true -> adjacent_hyphens s = false ->
  all_chars p (drop_leading_hyphen s) = true
  /\ adjacent_hyphens (drop_leading_hyphen s) = false
  /\ starts_with_hyphen (drop_leading_hyphen s) = false.
Proof.
  destruct s as [|c s]; [repeat split |]. intros Hp Ha.
  rewrite adjacent_cons in Ha. apply orb_false_iff in Ha as [E Ha].
  cbn [all_chars] in Hp. apply andb_true_iff in Hp as [Hc Hs].
  cbn [drop_leading_hyphen]. destruct (is_hyphen c) eqn:Ec.
  - repeat split; assumption.
  - cbn [all_chars starts_with_hyphen]. rewrite Hc, Hs, adjacent_cons, Ec, Ha.
    repeat split.
Qed.

Lemma drop_trailing_cons (c : ascii) (s : string) :
  drop_trailing_hyphen (String c s)
  = match s with
    | EmptyString => if is_hyphen c then EmptyString else String c s
    | _ => String c (drop_trailing_hyphen s)
    end.
Proof. destruct s; reflexivity. Qed.

Lemma ends_cons (c : ascii) (s : string) :
  ends_with_hyphen (String c s)
  = match s with
    | EmptyString => is_hyphen c
    | _ => ends_with_hyphen s
    end.
Proof. destruct s; reflexivity. Qed.

Lemma drop_trailing_spec (p : ascii -> bool) (s : string) :
  all_chars p s = true -> adjacent_hyphens s = false ->
  all_chars p (drop_trailing_hyphen s) = true
  /\ adjacent_hyphens (drop_trailing_hyphen s) = false
  /\ (starts_with_hyphen s = false ->
      starts_with_hyphen (drop_trailing_hyphen s) = false)
  /\ ends_with_hyphen (drop_trailing_hyphen s) = false.
Proof.
  induction s as [|c s IH]; [repeat split |]. intros Hp Ha.
  rewrite adjacent_cons in Ha. apply orb_false_iff in Ha as [E Ha].
  cbn [all_chars] in Hp. apply andb_true_iff in Hp as [Hc Hs].
  rewrite drop_trailing_cons. destruct s as [|c' s'].
  - destruct (is_hyphen c) eqn:Ec; [repeat split |].
    cbn. rewrite Hc, Ec. repeat split.
  - destruct (IH Hs Ha) as (Hp' & Ha' & Hst' & He').
    set (r := drop_trailing_hyphen (String c' s')) in *.
    assert (Hstart : is_hyphen c && starts_with_hyphen r = false).
    { destruct (is_hyphen c) eqn:Ec; [| reflexivity].
      apply Hst'. exact E. }
    cbn [all_chars]. rewrite Hc, Hp', adjacent_cons, Hstart, Ha'.
    split; [reflexivity |]. split; [reflexivity |].
    split; [intros H; exact H |].
    rewrite ends_cons. destruct r as [|a r'] eqn:Er.
    + destruct (is_hyphen c) eqn:Ec; [| reflexivity].
      exfalso. cbn in E. destruct s' as [|c'' s'']; [| discriminate Er].
      cbn in Er. destruct (is_hyphen c'); [discriminate E | discriminate Er].
    + exact He'.
Qed.

Lemma drop_trailing_id (s : string) :
  ends_with_hyphen s = false -> drop_trailing_hyphen s = s.
Proof.
  induction s as [|c s IH]; [reflexivity |].
  rewrite ends_cons, drop_trailing_cons. destruct s as [|c' s'].
  - intros ->. reflexivity.
  - intros H. rewrite (IH H). reflexivity.
Qed.

Lemma map_chars_id (f : ascii -> ascii) (p : ascii -> bool) (s : string) :
  (forall c, p c = true -> f c = c) ->
  all_chars p s = true -> map_chars f s = s.
Proof.
  intros Hf. induction s as [|c s IH]; [reflexivity |]. cbn.
  intros [Hc Hs]%andb_true_iff. rewrite (Hf c Hc), (IH Hs). reflexivity.
Qed.

Lemma hyphens_map_to_lower (s : string) :
  adjacent_hyphens (map_chars to_lower s) = adjacent_hyphens s
  /\ starts_with_hyphen (map_chars to_lower s) = starts_with_hyphen s
  /\ ends_with_hyphen (map_chars to_lower s) = ends_with_hyphen s.
Proof.
  induction s as [|c s (IHa & IHs & IHe)]; [repeat split |].
  cbn [map_chars]. rewrite !adjacent_cons, !ends_cons, IHa, IHs.
  cbn [starts_with_hyphen]. rewrite is_hyphen_to_lower.
  repeat split. destruct s; [reflexivity | exact IHe].
Qed.

Lemma convertName_is_slug (name : string) : is_slug (convertName name).
Proof.
  unfold convertName.
  set (m := map_chars (fun c => if is_alnum c then c else "-"%char) name).
  assert (Hm : all_chars (fun c => is_alnum c || is_hyphen c) m = true).
  { subst m. rewrite <- all_chars_map_chars.
    clear. induction name as [|c s IH]; [reflexivity |].
    cbn [all_chars]. rewrite IH, alnum_or_hyphen. reflexivity. }
  pose proof (all_chars_squeeze _ _ Hm) as Hs.
  pose proof (adjacent_squeeze m) as Ha.
  destruct (drop_leading_spec _ _ Hs Ha) as (Hl & Hla & Hls).
  destruct (drop_trailing_spec _ _ Hl Hla) as (Ht & Hta & Hts & Hte).
  set (t := drop_trailing_hyphen _) in *. unfold is_slug.
  destruct (hyphens_map_to_lower t) as (-> & -> & ->).
  split; [| auto].
  rewrite <- all_chars_map_chars.
  exact (all_chars_impl _ _ _ slug_char_to_lower Ht).
Qed.

Lemma convertName_fixes_slugs (s : string) : is_slug s -> convertName s = s.
Proof.
  intros (Hc & Ha & Hs & He). unfold convertName.
  rewrite (map_chars_id _ slug_char s alnum_or_hyphen_slug_char Hc).
  rewrite (squeeze_id s Ha).
  assert (drop_leading_hyphen s = s) as ->.
  { destruct s as [|c s']; [reflexivity |]. cbn in Hs |- *. now rewrite Hs. }
  rewrite (drop_trailing_id s He).
  exact (map_chars_id _ slug_char s to_lower_slug_char Hc).
Qed.

(** X7: [convertName] turns every title into a url slug: only lower-case
    letters, digits and hyphens are left, no hyphen stands at either end
    and no two hyphens stand together. *)
Theorem convertName_slug (name : string) : is_slug (convertName name).
Proof. exact (convertName_is_slug name). Qed.

(** X8: [convertName] is idempotent: a converted name converts to
    itself. *)
Theorem convertName_idempotent (name : string) :
  convertName (convertName name) = convertName name.
Proof. apply convertName_fixes_slugs, convertName_is_slug. Qed.
End Slugs.

(** ** Hidive episode ids *)

Section EpisodeIds.
Import Async Hidive.

Lemma pretty_N_nonempty (n : N) : exists c s, pretty n = String c s.
Proof.
  destruct (pretty n) as [|c s] eqn:E; [| eauto].
  exfalso. pose proof (digits_value_pretty n) as H. rewrite E in H.
  cbn in H. subst n. discriminate E.
Qed.

Lemma is_digit_not_hyphen (c : ascii) :
  JS.is_digit c = true -> is_hyphen c = false.
Proof.
  intros H. unfold is_hyphen. apply Ascii.eqb_neq. intros ->. discriminate.
Qed.

Lemma append_cons (c : ascii) (a b : string) :
  String c a ++ b = String c (a ++ b).
Proof. reflexivity. Qed.

Lemma append_nil (b : string) : "" ++ b = b.
Proof. reflexivity. Qed.

Lemma first_hyphen_split (a b x y : string) :
  JS.all_chars JS.is_digit a = true -> JS.all_chars JS.is_digit b = true ->
  a ++ "-" ++ x = b ++ "-" ++ y -> a = b /\ x = y.
Proof.
  revert b. induction a as [|c a IH]; intros [|d b] Ha Hb H;
    rewrite ?append_cons, ?append_nil in H.
  - injection H as ->. split; reflexivity.
  - exfalso. injection H as <- _. discriminate Hb.
  - exfalso. injection H as -> _. discriminate Ha.
  - cbn in Ha, Hb. apply andb_true_iff in Ha as [_ Ha].
    apply andb_true_iff in Hb as [_ Hb].
    injection H as -> H. destruct (IH b Ha Hb H) as [-> ->].
    split; reflexivity.
Qed.

Lemma join_inj (z1 z2 : Z) (k1 k2 : string) :
  pretty z1 ++ "-" ++ k1 = pretty z2 ++ "-" ++ k2 -> z1 = z2 /\ k1 = k2.
Proof.
  assert (Hnn : forall n1 n2 : N,
             pretty n1 ++ "-" ++ k1 = pretty n2 ++ "-" ++ k2 ->
             n1 = n2 /\ k1 = k2).
  { intros n1 n2 H.
    apply first_hyphen_split in H as [H ->]; try apply pretty_N_digits.
    apply (inj pretty) in H. split; [exact H | reflexivity]. }
  assert (Hmix : forall (n1 : N) (p2 : positive) (x y : string),
             pretty n1 ++ x <> ("-" ++ pretty (Npos p2)) ++ y).
  { intros n1 p2 x y H.
    destruct (pretty_N_nonempty n1) as (c & s & E).
    pose proof (pretty_N_digits n1) as Hd. rewrite E in H, Hd.
    cbn in Hd. apply andb_true_iff in Hd as [Hc _].
    rewrite ?append_cons, ?append_nil in H.
    injection H as -> _. discriminate Hc. }
  destruct z1 as [|p1|p1], z2 as [|p2|p2]; intros H.
  - apply (Hnn 0%N 0%N) in H as [_ ->]. split; reflexivity.
  - apply (Hnn 0%N (Npos p2)) in H as [? _]. discriminate.
  - exfalso. exact (Hmix 0%N p2 _ _ H).
  - apply (Hnn (Npos p1) 0%N) in H as [? _]. discriminate.
  - apply (Hnn (Npos p1) (Npos p2)) in H as [[= ->] ->]. split; reflexivity.
  - exfalso. exact (Hmix (Npos p1) p2 _ _ H).
  - exfalso. symmetry in H. exact (Hmix 0%N p1 _ _ H).
  - exfalso. symmetry in H. exact (Hmix (Npos p2) p1 _ _ H).
  - change (pretty (Z.neg p1)) with ("-" ++ pretty (Npos p1)) in H.
    change (pretty (Z.neg p2)) with ("-" ++ pretty (Npos p2)) in H.
    rewrite ?append_cons, ?append_nil in H. injection H as H.
    apply (Hnn (Npos p1) (Npos p2)) in H as [[= ->] ->]. split; reflexivity.
Qed.

(** X9: an episode id names one episode: two ids are equal exactly when
    the title ids and the video keys are, also for video keys with hyphens
    in them, which the parse of [fetchStream] does not give back. *)
Theorem episodeId_injective (t1 t2 : _Title) (e1 e2 : _Episode) :
  episodeId t1 e1 = episodeId t2 e2
  <-> Id t1 = Id t2 /\ VideoKey e1 = VideoKey e2.
Proof.
  unfold episodeId. split; [apply join_inj |].
  intros [-> ->]. reflexivity.
Qed.

(** Two episodes of one title whose keys hold a hyphen, and two titles
    whose ids read alike up to the place of a hyphen: 12 with the key
    ["34-s01-e001"] and 1234 with the key ["s01-e001"]. *)
Lemma episodeId_injective_witness :
  episodeId title_1234 episode_s01_e001
    <> episodeId title_1234 episode_s01_e002
  /\ episodeId
       {| Id := 12; TitleName := "Made in Abyss"; RunTime := 25;
          Episodes := [] |}
       {| EpisodeNumberValue := 1; Name := "The City of the Great Pit";
          ScreenShotSmallUrl := "//static.hidive.com/s01e001.jpg";
          VideoKey := "34-s01-e001" |}
     <> episodeId title_1234 episode_s01_e001.
Proof.
  split; intros H; apply episodeId_injective in H as [H1 H2];
    discriminate.
Defined.
End EpisodeIds.

Section IdParsing.
Import Async Hidive.

Variables TOKEN APP_ID : string.
Variable sha256_hex : string -> string.
Variable JSON_stringify : Body -> string.
Variable timezoneOffset : Z -> Z.
Variable formatUTC : Z -> string -> string.

Local Abbreviation fetchStream' :=
  (fetchStream TOKEN APP_ID sha256_hex JSON_stringify timezoneOffset formatUTC).
Local Abbreviation fetchEpisodesById' :=
  (fetchEpisodesById TOKEN APP_ID sha256_hex JSON_stringify timezoneOffset
     formatUTC).

Lemma string_of_list_ascii_app (a b : list ascii) :
  string_of_list_ascii (a ++ b)
  = string_of_list_ascii a ++ string_of_list_ascii b.
Proof.
  induction a as [|c a IH]; [reflexivity |].
  cbn [app string_of_list_ascii]. rewrite append_cons. f_equal. exact IH.
Qed.

Lemma has_line_terminator_forallb (s : string) :
  forallb dot (list_ascii_of_string s) = false -> has_line_terminator s.
Proof.
  unfold has_line_terminator. induction s as [|c s IH]; [discriminate |].
  cbn [list_ascii_of_string forallb]. intros [Hc | Hs]%andb_false_iff.
  - exists c. split; [apply list_elem_of_here |].
    unfold dot in Hc. now apply negb_false_iff in Hc.
  - destruct (IH Hs) as (c' & Hin & Hc'). exists c'.
    split; [apply list_elem_of_further, Hin | exact Hc'].
Qed.

Lemma match_backtrack_split (cs l1 l2 : list ascii) :
  match_backtrack (length cs) cs = Some (l1, l2) <->
  cs = (l1 ++ "-"%char :: l2)%list
  /\ ("-"%char ∉ l2)
  /\ forallb dot cs = true.
Proof.
  split.
  - intros H. pose proof H as H'.
    apply match_backtrack_Some in H' as (m & Hm & Ha & _).
    assert (Hlt : (m < length cs)%nat).
    { destruct (decide (m < length cs)%nat) as [? | Hge]; [assumption |].
      rewrite match_attempt_ge in Ha by lia. discriminate. }
    destruct (lookup_lt_is_Some_2 cs m Hlt) as [c Hc].
    rewrite (match_attempt_at m cs c Hc) in Ha.
    destruct (_ && _) eqn:E; [| discriminate]. injection Ha as Hl1 Hl2.
    apply andb_true_iff in E as [E H2]. apply andb_true_iff in E as [H1 Ec].
    apply Ascii.eqb_eq in Ec. subst c.
    pose proof (take_drop_middle cs m _ Hc) as Hcs.
    rewrite Hl1, Hl2 in Hcs. rewrite Hl1 in H1. rewrite Hl2 in H2.
    clear Hl1 Hl2 Hc. subst cs.
    assert (Hdot : forallb dot (l1 ++ "-"%char :: l2) = true).
    { rewrite forallb_app. cbn [forallb]. now rewrite H1, H2. }
    split; [reflexivity |]. split; [| exact Hdot].
    apply match_backtrack_join in H; [| exact H1].
    exact (proj1 H).
  - intros (-> & Hin & Hdot). rewrite forallb_app in Hdot.
    apply andb_true_iff in Hdot as [H1 H2]. cbn [forallb] in H2.
    apply andb_true_iff in H2 as [_ H2].
    apply match_backtrack_join; [exact H1 | split; assumption].
Qed.

Lemma match_id_Some_iff (id g1 g2 : string) :
  match_id id = Some (g1, g2) <->
  id = g1 ++ "-" ++ g2 /\ ~ has_hyphen g2 /\ ~ has_line_terminator id.
Proof.
  rewrite <- forallb_dot_iff. unfold match_id, has_hyphen. split.
  - destruct (match_backtrack _ _) as [[l1 l2]|] eqn:E; [| discriminate].
    intros [= <- <-]. apply match_backtrack_split in E as (Hcs & Hin & Hd).
    rewrite list_ascii_of_string_of_list_ascii. split; [| split; assumption].
    rewrite <- (string_of_list_ascii_of_string id), Hcs.
    rewrite string_of_list_ascii_app. reflexivity.
  - intros (-> & Hin & Hd).
    rewrite !list_ascii_of_string_app in Hd |- *.
    change (list_ascii_of_string "-") with ["-"%char] in Hd |- *.
    cbn [app] in Hd |- *.
    rewrite (proj2 (match_backtrack_split _ (list_ascii_of_string g1)
                      (list_ascii_of_string g2))) by (split; [| split]; auto).
    now rewrite !string_of_list_ascii_of_string.
Qed.

Lemma match_id_None_iff (id : string) :
  match_id id = None <-> ~ has_hyphen id \/ has_line_terminator id.
Proof.
  split.
  - intros Hnone.
    destruct (decide ("-"%char ∈ list_ascii_of_string id)) as [Hin | Hnin];
      [| left; exact Hnin].
    right. destruct (forallb dot (list_ascii_of_string id)) eqn:Hd.
    + exfalso. apply list_elem_of_split_r in Hin as (l1 & l2 & Hcs & Hl2).
      assert (match_id id
              = Some (string_of_list_ascii l1, string_of_list_ascii l2)) as H.
      { unfold match_id.
        rewrite (proj2 (match_backtrack_split _ l1 l2)) by auto.
        reflexivity. }
      congruence.
    + apply has_line_terminator_forallb, Hd.
  - intros H. destruct (match_id id) as [[g1 g2]|] eqn:E; [| reflexivity].
    exfalso. apply match_id_Some_iff in E as (Hid & _ & Hlt).
    destruct H as [Hh | Hl]; [| contradiction]. apply Hh. rewrite Hid.
    unfold has_hyphen. rewrite !list_ascii_of_string_app.
    change (list_ascii_of_string "-") with ["-"%char].
    rewrite !elem_of_app, elem_of_cons. auto.
Qed.

(** X10: the parse of an episode id.  It gives two parts exactly when the
    id holds no line terminator and the parts are what stands before and
    after the last hyphen of the id; it gives nothing exactly when the id
    has no hyphen at all or holds a line terminator. *)
Theorem match_id_last_hyphen (id : string) :
  (forall g1 g2,
     match_id id = Some (g1, g2) <->
     id = g1 ++ "-" ++ g2
     /\ ~ has_hyphen g2
     /\ ~ has_line_terminator id)
  /\ (match_id id = None <-> ~ has_hyphen id \/ has_line_terminator id).
Proof.
  split; [intros g1 g2; apply match_id_Some_iff | apply match_id_None_iff].
Qed.

(** X11: [fetchStream] throws a TypeError without having sent anything
    exactly for the ids that do not parse: those without hyphen and those
    that hold a line terminator. *)
Theorem fetchStream_unparsable (sess : Session) (now : Z) (id : string)
  (net : nat -> Reply (HidiveResponse _Stream)) :
  (~ has_hyphen id \/ has_line_terminator id)
  <-> run (fetchStream' sess now id) net = (Throw TypeError, []).
Proof.
  rewrite <- match_id_None_iff.
  unfold fetchStream, request.
  destruct (match_id id) as [[m1 m2]|]; [| split; reflexivity].
  split; [discriminate |]. run_io.
  destruct (net 0%nat) as [response | message]; [| discriminate].
  destruct (_ || _); [discriminate |].
  destruct (get_opt _ _); discriminate.
Qed.

(** X12: the episodes that [fetchEpisodesById] returns for a title have
    pairwise distinct ids whenever the video keys of the payload are
    pairwise distinct. *)
Theorem fetchEpisodesById_distinct_ids (sess : Session) (now : Z)
  (anilistId id : Z) (net : nat -> Reply (HidiveResponse _Title))
  (response : HidiveResponse _Title) :
  net 0%nat = Answered response ->
  NoDup (map VideoKey (Episodes (Data response))) ->
  match fst (run (fetchEpisodesById' sess now anilistId id) net) with
  | Return (Some episodes) => NoDup (map Types.id episodes)
  | Return None => rejected response
  | Throw _ => False
  end.
Proof.
  intros Hnet Hkeys.
  pose proof (fetchEpisodesById_ids TOKEN APP_ID sha256_hex JSON_stringify
                timezoneOffset formatUTC sess now anilistId id net) as Hids.
  rewrite Hnet in Hids.
  destruct (fst _) as [[episodes|]|]; try exact Hids.
  rewrite Hids.
  rewrite <- (map_map VideoKey
                (fun k => pretty (Id (Data response)) ++ "-" ++ k)).
  apply (NoDup_fmap_2 (fun k => pretty (Id (Data response)) ++ "-" ++ k)).
  exact Hkeys.
Qed.

Lemma Forall_imap {A B} (P : B -> Prop) (f : nat -> A -> B) (l : list A) :
  (forall i a, P (f i a)) -> Forall P (imap f l).
Proof.
  revert f. induction l as [|a l IH]; intros f Hf; [constructor |].
  cbn. constructor; [apply Hf |]. apply IH. intros i b. apply Hf.
Qed.

Lemma absolute_url_cases (s : string) :
  if protocol_relative s
  then "https:" ++ s = absolute_url s
  else absolute_url s = s.
Proof.
  destruct s as [|a s]; [reflexivity |].
  destruct a as [[] [] [] [] [] [] [] []];
    (destruct s as [|b s]; [reflexivity |]); try reflexivity.
  destruct b as [[] [] [] [] [] [] [] []]; reflexivity.
Qed.

(** X13: [fetchEpisodesById] sends one request, a [GetTitle] with the id
    it was asked for as its body.  When the request is not answered, its
    rejection is thrown; from a response that is rejected it returns null.
    From an accepted response it returns one episode per episode of the
    payload, in the order of the payload and with the positions 0, 1, 2,
    ... as indices.  Every episode belongs to the anime asked for and to
    Hidive, has the name and the number of its payload entry, lasts the
    run time of the title in seconds and has no progress; its thumbnail
    is the screenshot address, with [https:] put before it when it starts
    with two slashes; its page address is the site, the slug of the title
    name and its video key. *)
Theorem fetchEpisodesById_episodes (sess : Session) (now : Z)
  (anilistId id : Z) (net : nat -> Reply (HidiveResponse _Title)) :
  let r := run (fetchEpisodesById' sess now anilistId id) net in
  (exists headers,
     snd r = [Sent {| req_type := GetTitle; req_headers := headers;
                      req_body := Some (GetTitleBody id) |}])
  /\ match net 0%nat with
     | Failed message => fst r = Throw (Error message)
     | Answered response =>
         let title := Data response in
         (rejected response -> fst r = Return None)
         /\ (~ rejected response ->
             exists episodes,
               fst r = Return (Some episodes)
               /\ map Types.index episodes
                  = seq 0 (length (Episodes title))
               /\ Forall2
                    (fun episode ep =>
                       Types.provider episode = Types.ProviderHidive
                       /\ Types.animeId episode = anilistId
                       /\ Types.title episode = Name ep
                       /\ Types.episodeNumber episode
                          = EpisodeNumberValue ep
                       /\ Types.duration episode = RunTime title * 60
                       /\ Types.progress episode = None
                       /\ Types.thumbnail episode
                          = (if protocol_relative (ScreenShotSmallUrl ep)
                             then "https:" ++ ScreenShotSmallUrl ep
                             else ScreenShotSmallUrl ep)
                       /\ exists slug,
                            is_slug slug
                            /\ slug = convertName (TitleName title)
                            /\ Types.url episode
                               = "https://hidive.com/tv/" ++ slug ++ "/"
                                   ++ VideoKey ep)
                    episodes (Episodes title))
     end.
Proof.
  unfold fetchEpisodesById, request. run_io.
  destruct (net 0%nat) as [response | message];
    [| split; [eexists; reflexivity | reflexivity]].
  cbv zeta. pose proof (rejected_iff response) as Hrej.
  destruct (_ || _) eqn:E; cbn [fst snd];
    (split; [eexists; reflexivity |]).
  - split; [reflexivity |]. intros Hn. exfalso. apply Hn, Hrej. reflexivity.
  - split; [intros H; apply Hrej in H; discriminate |]. intros _.
    eexists. split; [reflexivity |].
    split; [apply (imap_seq_ext _ _ _ 0); reflexivity |].
    generalize (Episodes (Data response)). intros l.
    apply Forall2_same_length_lookup_2; [now rewrite length_imap |].
    intros i episode ep Hi Hep.
    rewrite list_lookup_imap, Hep in Hi. cbn in Hi. injection Hi as <-.
    cbn. repeat (split; [reflexivity |]). split.
    + pose proof (absolute_url_cases (ScreenShotSmallUrl ep)) as H.
      destruct (protocol_relative _); congruence.
    + eexists. split; [apply convertName_is_slug |]. split; reflexivity.
Qed.
End IdParsing.

Section IdParsingExamples.
Import Async Hidive.

Lemma fetchEpisodesById_distinct_ids_witness :
  match fst (run (example_fetchEpisodesById session_0 0 20 1234)
                 (fun _ => Answered three_episodes))
  with
  | Return (Some episodes) =>
      map Types.id episodes
      = ["1234-s01-e001"; "1234-s01-e002";
         "1234-s01" ++ String "010"%char "e001"]
      /\ NoDup (map Types.id episodes)
  | _ => False
  end.
Proof.
  pose proof (fetchEpisodesById_distinct_ids "token" "client" example_digest
                example_stringify fixed_zone example_formatUTC session_0 0
                20 1234 (fun _ => Answered three_episodes) three_episodes
                eq_refl) as H.
  cbn in H. cbn. split; [reflexivity |]. apply H.
  repeat (apply NoDup_cons_2;
          [rewrite ?elem_of_cons, elem_of_nil; intros Hin;
           repeat (destruct Hin as [Hin | Hin]; [discriminate |]);
           exact Hin |]).
  apply NoDup_nil_2.
Defined.
End IdParsingExamples.
(** ** List mutations *)

Section MoreMutations.
Import Async ListMutations.
Import Types(ProviderCrunchyroll, ProviderHidive).

Lemma oldStatus_last_known (c : Cache) (anilistId : Z) :
  status (getOptimisticResponse c anilistId no_values)
  = status (last_known c anilistId).
Proof.
  unfold getOptimisticResponse, last_known.
  destruct (data c !! anilistId); reflexivity.
Qed.

(** X14: a progress that is not negative is sent: [setProgress] hands
    exactly one [UpdateProgress] mutation to the network, for the anime of
    the episode and with its number as the progress, and reports nothing
    to Sentry. *)
Theorem setProgress_dispatches (server : Server)
  (options : EpisodeMutationObject) (c : Client) :
  0 <= episodeNumber options ->
  let c' := snd (setProgress server options c) in
  captured c' = captured c
  /\ exists opts,
       dispatched c' = (dispatched c ++ [opts])%list
       /\ mutation opts = UPDATE_PROGRESS
       /\ variables opts
          = UpdateProgressVariables (animeId options) (episodeNumber options).
Proof.
  intros Hge c'. subst c'. unfold setProgress.
  assert ((episodeNumber options <? 0) = false) as ->
    by (apply Z.ltb_ge, Hge).
  rewrite mutate_dispatched. split.
  - unfold mutate. cbn [mutation variables].
    destruct (server _ _); [| reflexivity].
    destruct (apply_result _ _ _) as [[] ?]; reflexivity.
  - eexists. split; [reflexivity |]. split; reflexivity.
Qed.

Lemma setProgress_dispatches_witness :
  exists opts,
    dispatched (snd (setProgress planning_to_current
                       {| provider := ProviderCrunchyroll; animeId := 21;
                          episodeNumber := 0 |}
                       (new_client cache_21)))
    = [opts]
    /\ variables opts = UpdateProgressVariables 21 0.
Proof.
  destruct (setProgress_dispatches planning_to_current
              {| provider := ProviderCrunchyroll; animeId := 21;
                 episodeNumber := 0 |}
              (new_client cache_21)) as (_ & opts & Hd & _ & Hv);
    [discriminate |].
  exists opts. split; [exact Hd | exact Hv].
Defined.

Lemma editListEntry_success (server : Server) (c : Client) (anilistId : Z)
  (options : PartialListEntry) (d : ListEntry) :
  server EDIT_LIST_ENTRY (EditListEntryMutationVariables anilistId options)
    = Resolved (Some d) ->
  fst (editListEntry server anilistId options c)
    = Return (ExecutionResult (Some d))
  /\ cache (snd (editListEntry server anilistId options c))
     = if decide (p_status options
                  = Some (status (last_known (cache c) anilistId)))
       then writeResult (cache c) (Some d)
       else addToCacheList
              (removeFromCacheList (writeResult (cache c) (Some d)) anilistId)
              d.
Proof.
  intros Hserver. unfold editListEntry, mutate.
  cbn [mutation variables]. rewrite Hserver.
  unfold apply_result. cbn [update]. rewrite oldStatus_last_known.
  destruct (decide _); split; reflexivity.
Qed.



(** X16: when the requested status differs from the cached one, or the
    edit names no status, a successful [editListEntry] moves the entry: it
    then occurs once, in the bucket of the returned status, and in no
    other bucket. *)
Theorem editListEntry_moves (server : Server) (c : Client)
  (anilistId : Z) (options : PartialListEntry) (d : ListEntry) :
  server EDIT_LIST_ENTRY (EditListEntryMutationVariables anilistId options)
    = Resolved (Some d) ->
  mediaId d = anilistId ->
  p_status options <> Some (status (last_known (cache c) anilistId)) ->
  let c' := snd (editListEntry server anilistId options c) in
  forall s,
    occurrences (cache c') s anilistId
    = if decide (s = status d) then 1%nat else 0%nat.
Proof.
  intros Hserver <- Hdiff c' s. subst c'.
  destruct (editListEntry_success server c (mediaId d) options d Hserver)
    as [_ ->].
  rewrite decide_False by exact Hdiff. apply occurrences_update.
Qed.

Lemma editListEntry_moves_witness :
  occurrences
    (cache (snd (editListEntry
                   (fun _ _ =>
                      Resolved (Some {| id := 7; mediaId := 21; score := 80;
                                        progress := 3; rewatched := 0;
                                        status := Dropped |}))
                   21 no_values (new_client cache_21))))
    Planning 21
  = 0%nat.
Proof.
  exact (editListEntry_moves _ (new_client cache_21) 21 no_values
           {| id := 7; mediaId := 21; score := 80; progress := 3;
              rewatched := 0; status := Dropped |}
           eq_refl eq_refl ltac:(discriminate) Planning).
Defined.

Lemma occurrences_removed (c : Cache) (anilistId : Z) (s : MediaListStatus) :
  occurrences (removeFromCacheList c anilistId) s anilistId = 0%nat.
Proof.
  unfold occurrences, removeFromCacheList, set_lists. cbn.
  rewrite (filter_out_filter (fun e => mediaId e =? anilistId)).
  reflexivity.
Qed.




(** X19: a successful [deleteFromList] takes the anime out of every list
    bucket and clears the list entry of its stored anime page; a page that
    is not stored, or holds no list entry, is left alone and is no error,
    and the pages of other anime are not touched. *)
Theorem deleteFromList_success (server : Server) (anilistId : Z)
  (c : Client) (result : option ListEntry) :
  server DELETE_FROM_LIST (DeleteFromListVariables anilistId)
    = Resolved result ->
  let c' := snd (deleteFromList server anilistId c) in
  fst (deleteFromList server anilistId c) = Return (ExecutionResult result)
  /\ (forall s, occurrences (cache c') s anilistId = 0%nat)
  /\ animePage (cache c') !! anilistId
     = match animePage (cache c) !! anilistId with
       | Some (Some _) => Some None
       | page => page
       end
  /\ (forall k, k <> anilistId ->
      animePage (cache c') !! k = animePage (cache c) !! k).
Proof.
  intros Hserver c'. subst c'. unfold deleteFromList, mutate.
  cbn [mutation variables]. rewrite Hserver.
  unfold apply_result. cbn [update]. cbv beta zeta.
  assert (Hpage : animePage (removeFromCacheList
                               (writeResult (cache c) result) anilistId)
                  = animePage (cache c)) by (destruct result; reflexivity).
  rewrite Hpage.
  destruct (animePage (cache c) !! anilistId) as [[e|]|] eqn:E;
    cbn [fst snd cache].
  - split; [reflexivity |]. split; [| split].
    + intros s. exact (occurrences_removed _ anilistId s).
    + unfold set_animePage. cbn [animePage]. apply lookup_insert_eq.
    + intros k Hk. unfold set_animePage. cbn [animePage]. rewrite Hpage.
      apply lookup_insert_ne. congruence.
  - split; [reflexivity |]. split; [| split].
    + intros s. exact (occurrences_removed _ anilistId s).
    + rewrite Hpage. exact E.
    + intros k _. rewrite Hpage. reflexivity.
  - split; [reflexivity |]. split; [| split].
    + intros s. exact (occurrences_removed _ anilistId s).
    + rewrite Hpage. exact E.
    + intros k _. rewrite Hpage. reflexivity.
Qed.

Lemma deleteFromList_success_witness :
  occurrences
    (cache (snd (deleteFromList (fun _ _ => Resolved None) 21
                   (new_client cache_21))))
    Planning 21
  = 0%nat.
Proof.
  exact (proj1 (proj2 (deleteFromList_success (fun _ _ => Resolved None) 21
                         (new_client cache_21) None eq_refl))
           Planning).
Defined.

(** X20: [addToList] counts on the stored anime page.  When the service
    returns an entry, the mutation resolves with it and the entry is put
    into the bucket of its status.  If the page of the anime is stored,
    its list entry becomes the returned entry.  If it is not, the [update]
    callback throws after it has changed the bucket; the client writes
    the error to the console and the page stays missing. *)
Theorem addToList_page (server : Server) (anilistId : Z) (c : Client)
  (d : ListEntry) :
  server ADD_TO_LIST (AddToListVariables anilistId) = Resolved (Some d) ->
  let r := addToList server anilistId c in
  fst r = Return (ExecutionResult (Some d))
  /\ In d (lists (cache (snd r)) (status d))
  /\ match animePage (cache c) !! anilistId with
     | Some _ =>
         animePage (cache (snd r)) !! anilistId = Some (Some d)
         /\ logged (snd r) = logged c
     | None =>
         animePage (cache (snd r)) !! anilistId = None
         /\ exists e, logged (snd r) = (logged c ++ [e])%list
     end.
Proof.
  intros Hserver r. subst r. unfold addToList, mutate.
  cbn [mutation variables optimisticResponse]. rewrite Hserver.
  unfold apply_result. cbn [update].
  change (animePage (addToCacheList (writeResult (cache c) (Some d)) d))
    with (animePage (cache c)).
  assert (Hin : In d (lists (addToCacheList
                               (writeResult (cache c) (Some d)) d)
                        (status d))).
  { unfold addToCacheList, set_lists. cbn. rewrite fn_lookup_insert.
    apply in_or_app. right. now left. }
  destruct (animePage (cache c) !! anilistId) as [page|] eqn:E;
    cbn [fst snd cache logged thrown flat_map app].
  - split; [reflexivity |]. split; [exact Hin |]. split.
    + cbn. apply lookup_insert_eq.
    + apply app_nil_r.
  - split; [reflexivity |]. split; [exact Hin |]. split; [exact E |].
    eexists. reflexivity.
Qed.

(** The page of anime 21 is not stored in [cache_21]. *)
Lemma addToList_page_witness :
  fst (addToList (answers entry_21) 21 (new_client cache_21))
    = Return (ExecutionResult (Some entry_21))
  /\ length (logged (snd (addToList (answers entry_21) 21
                            (new_client cache_21))))
     = 1%nat.
Proof.
  destruct (addToList_page (answers entry_21) 21 (new_client cache_21)
              entry_21 eq_refl) as (Hr & _ & _ & e & He).
  split; [exact Hr |]. rewrite He. reflexivity.
Defined.
End MoreMutations.

